(** * A shallow embedding of the Snake game engine (snake.c, screen.c, main.c)

    The C program keeps the snake as a doubly linked chain of heap nodes,
    the playing field as a grid of ints, and drives both from a frame loop.
    The embedding follows that shape:

    - heap nodes live in a finite map from locations to node records, a
      NULL-able pointer is an [option loc], and every dereference of NULL or
      of a freed location makes the operation fail ([None]);
    - the loops that follow pointers take a fuel argument;
    - [rand()] reads from a tape of non-negative numbers;
    - binary32 arithmetic is the Standard Library's [SpecFloat] at
      precision 24. *)

From Stdlib Require Import ZArith Lia SpecFloat.
From stdpp Require Import base option list gmap.

Local Open Scope Z_scope.

(** ** Geometry *)

Module Point.
(** Modelled from the spec: snake.h is not among the sources; a Point is
    an integer pair (x, y), and the code reads and writes [pos.x] and
    [pos.y]. *)
Record t : Set := mk { x : Z; y : Z }.

#[global] Instance eq_dec : EqDecision t.
Proof. solve_decision. Defined.
End Point.

(** Modelled from the spec: snake.h is not among the sources; the heading is
    one of NORTH, EAST, SOUTH, WEST.  The code's [rand() % (WEST + 1)] and
    [(direction + 2) % (WEST + 1)] fix the enumerators' order and values. *)
Inductive Direction : Set := NORTH | EAST | SOUTH | WEST.

#[global] Instance Direction_eq_dec : EqDecision Direction.
Proof. solve_decision. Defined.

(** The enumerator's integer value. *)
Definition Direction_code (d : Direction) : Z :=
  match d with NORTH => 0 | EAST => 1 | SOUTH => 2 | WEST => 3 end.

(** An int converted to the enumeration; the code only converts values in
    0..3. *)
Definition Direction_of_code (z : Z) : Direction :=
  if z =? 0 then NORTH else if z =? 1 then EAST else if z =? 2 then SOUTH else WEST.

(** ** The node heap *)

Definition loc : Set := positive.

Module Node.
(** Modelled from the spec: snake.h is not among the sources; a chain node
    owns a position and links to its neighbours, [prev] toward the tail and
    [next] toward the head. *)
Record t : Set := mk { pos : Point.t; prev : option loc; next : option loc }.

Definition set_prev (p : option loc) (n : t) : t := mk (pos n) p (next n).
Definition set_next (p : option loc) (n : t) : t := mk (pos n) (prev n) p.
End Node.

Module Snake.
(** Modelled from the spec: snake.h is not among the sources; a Snake holds
    its head, its tail, its direction and its length. *)
Record t : Set :=
    mk { head : option loc; tail : option loc; direction : Direction; length : Z }.
End Snake.

Abbreviation Heap := (gmap loc Node.t).

(** [malloc] hands out a location that is not allocated. *)
Definition malloc (h : Heap) : loc := fresh (dom h).

(** [free]: freeing a location that is not allocated is undefined. *)
Definition free (a : loc) (h : Heap) : option Heap :=
  match h !! a with
  | Some _ => Some (delete a h)
  | None => None
  end.

(** ** snake.c *)

(** [Node *newNode(const Point pos, Node *prev)] *)
Definition newNode (pos : Point.t) (prev : option loc) (h : Heap) : loc * Heap :=
  let self := malloc h in
  (self, <[self := Node.mk pos prev None]> h).

(** [void destroyNode(Node *self)] *)
Definition destroyNode (self : option loc) (h : Heap) : option Heap :=
  match self with
  | Some a => free a h
  | None => Some h
  end.

(** [Snake *newSnake(const Point center)]; [r] is what [rand()] returned. *)
Definition newSnake (center : Point.t) (r : N) (h : Heap) : Snake.t * Heap :=
  let '(n, h1) := newNode center None h in
  (Snake.mk (Some n) (Some n)
     (Direction_of_code (Z.rem (Z.of_N r) (Direction_code WEST + 1))) 1,
   h1).

(** The loop of [destroySnake]: [next = current->next; destroyNode(current);
    current = next] until [current] is NULL. *)
Fixpoint destroySnake_loop (fuel : nat) (current : option loc) (h : Heap)
  : option Heap :=
  match current with
  | None => Some h
  | Some a =>
      match fuel with
      | O => None
      | S fuel' =>
          n ← h !! a;
          h1 ← destroyNode (Some a) h;
          destroySnake_loop fuel' (Node.next n) h1
      end
  end.

(** [void destroySnake(Snake *self)]: the loop starts at [self->head]; the
    Snake record itself is freed last and is no part of the node heap. *)
Definition destroySnake (fuel : nat) (self : option Snake.t) (h : Heap)
  : option Heap :=
  match self with
  | Some s => destroySnake_loop fuel (Snake.head s) h
  | None => Some h
  end.

(** The inner loop of [selfCollision]: [it2] runs along [prev] and is
    compared with the position [p] of [it1]. *)
Fixpoint selfCollision_inner (fuel : nat) (h : Heap) (p : Point.t)
    (it2 : option loc) : option bool :=
  match it2 with
  | None => Some false
  | Some a2 =>
      match fuel with
      | O => None
      | S fuel' =>
          n2 ← h !! a2;
          if bool_decide (Point.x p = Point.x (Node.pos n2)) &&
             bool_decide (Point.y p = Point.y (Node.pos n2))
          then Some true
          else selfCollision_inner fuel' h p (Node.prev n2)
      end
  end.

(** The outer loop: [it1] runs from the head along [prev]; the inner loop
    starts at [it1->prev]. *)
Fixpoint selfCollision_outer (fuel : nat) (h : Heap) (it1 : option loc)
  : option (option Point.t) :=
  match it1 with
  | None => Some None
  | Some a1 =>
      match fuel with
      | O => None
      | S fuel' =>
          n1 ← h !! a1;
          hit ← selfCollision_inner fuel' h (Node.pos n1) (Node.prev n1);
          if hit : bool then Some (Some (Node.pos n1))
          else selfCollision_outer fuel' h (Node.prev n1)
      end
  end.

(** [bool selfCollision(const Snake *self, Point *collision)]: [Some p] is
    [true] with [*collision = p], [None] is [false]. *)
Definition selfCollision (fuel : nat) (self : Snake.t) (h : Heap)
  : option (option Point.t) :=
  selfCollision_outer fuel h (Snake.head self).

(** The switch of [advance]: one cell forward in the direction. *)
Definition step (d : Direction) (p : Point.t) : Point.t :=
  match d with
  | NORTH => Point.mk (Point.x p) (Point.y p - 1)
  | EAST => Point.mk (Point.x p + 1) (Point.y p)
  | SOUTH => Point.mk (Point.x p) (Point.y p + 1)
  | WEST => Point.mk (Point.x p - 1) (Point.y p)
  end.

(** [Node *advance(Snake *self)]: returns the old tail, the updated Snake
    and the updated heap. *)
Definition advance (self : Snake.t) (h : Heap)
  : option (option loc * Snake.t * Heap) :=
  (* Point newHeadPosition = self->head->pos, moved forward *)
  hd ← Snake.head self;
  hn ← h !! hd;
  let newHeadPosition := step (Snake.direction self) (Node.pos hn) in
  (* self->head->next = newNode(newHeadPosition, self->head) *)
  let '(n, h1) := newNode newHeadPosition (Some hd) h in
  hn1 ← h1 !! hd;
  let h2 := <[hd := Node.set_next (Some n) hn1]> h1 in
  (* self->head = self->head->next *)
  hn2 ← h2 !! hd;
  let head' := Node.next hn2 in
  (* Node *oldTail = self->tail *)
  let oldTail := Snake.tail self in
  (* self->tail = self->tail->next *)
  t ← oldTail;
  tn ← h2 !! t;
  let tail' := Node.next tn in
  (* self->tail->prev = NULL *)
  t' ← tail';
  tn' ← h2 !! t';
  let h3 := <[t' := Node.set_prev None tn']> h2 in
  Some (oldTail,
        Snake.mk head' tail' (Snake.direction self) (Snake.length self),
        h3).

(** [void changeDirection(Snake *self, Direction direction)] *)
Definition changeDirection (self : Snake.t) (direction : Direction) : Snake.t :=
  if bool_decide (direction = Snake.direction self) ||
     ((1 <? Snake.length self) &&
      (Direction_code direction =?
         Z.rem (Direction_code (Snake.direction self) + 2) (Direction_code WEST + 1)))
  then self
  else Snake.mk (Snake.head self) (Snake.tail self) direction (Snake.length self).

(** [void grow(Snake *self, Node *oldTail)] *)
Definition grow (self : Snake.t) (oldTail : option loc) (h : Heap)
  : option (Snake.t * Heap) :=
  (* oldTail->next = self->tail *)
  t ← oldTail;
  tn ← h !! t;
  let h1 := <[t := Node.set_next (Snake.tail self) tn]> h in
  (* self->tail = oldTail; ++self->length *)
  Some (Snake.mk (Snake.head self) oldTail (Snake.direction self)
          (Snake.length self + 1),
        h1).

(** ** Chains of nodes *)

(** [lseg link h p l q]: following [link] ([Node.prev] or [Node.next]) from
    the pointer [p] visits exactly the locations [l], in this order, and
    ends with the pointer [q]. *)
Fixpoint lseg (link : Node.t → option loc) (h : Heap) (p : option loc)
    (l : list loc) (q : option loc) : Prop :=
  match l with
  | [] => p = q
  | a :: l' => p = Some a ∧ ∃ n, h !! a = Some n ∧ lseg link h (link n) l' q
  end.

(** The same walk as a function: the locations visited from [p] until NULL,
    [None] when a pointer dangles or the fuel runs out. *)
Fixpoint walk (link : Node.t → option loc) (fuel : nat) (h : Heap)
    (p : option loc) : option (list loc) :=
  match p with
  | None => Some []
  | Some a =>
      match fuel with
      | O => None
      | S fuel' =>
          n ← h !! a;
          l ← walk link fuel' h (link n);
          Some (a :: l)
      end
  end.

(** ** The shape of a snake that the operations keep

    [t] is the tail and [rest] the other segments toward the head.  The
    [next] links lead from the tail through all of them.  The [prev] links
    lead from the head back to the segment after the tail and from there to
    the tail, except right after [grow], which re-attaches the tail through
    its [next] link only ([regrown]). *)
Record snake_inv (s : Snake.t) (h : Heap) (t : loc) (rest : list loc)
    (regrown : bool) : Prop := {
  inv_nodup : NoDup (t :: rest);
  inv_tail : Snake.tail s = Some t;
  inv_head : Snake.head s = last (t :: rest);
  inv_length : Snake.length s = Z.of_nat (length (t :: rest));
  inv_next : lseg Node.next h (Some t) (t :: rest) None;
  inv_prev : lseg Node.prev h (Snake.head s) (reverse rest)
               (if regrown then None else Some t);
  inv_tail_prev : Node.prev <$> h !! t = Some None
}.


(** ** The snake between two frames

    main.c changes the snake only through [changeDirection], and through
    [advance] followed at once by [grow] (the orb was eaten) or by
    [destroyNode] (it was not), each on the node [advance] returned. *)
Inductive settled : Snake.t → Heap → Prop :=
| settled_newSnake center r h :
    settled (newSnake center r h).1 (newSnake center r h).2
| settled_changeDirection s h d :
    settled s h → settled (changeDirection s d) h
| settled_move s h oldTail s' h' h'' :
    settled s h →
    advance s h = Some (oldTail, s', h') →
    destroyNode oldTail h' = Some h'' →
    settled s' h''
| settled_grow s h oldTail s' h' s'' h'' :
    settled s h →
    advance s h = Some (oldTail, s', h') →
    grow s' oldTail h' = Some (s'', h'') →
    settled s'' h''.

(** *** Running the code on a first snake *)

Definition center0 : Point.t := Point.mk 5 5.

Definition snake0 : Snake.t * Heap := newSnake center0 1 ∅.

(** One frame on which the first snake eats: [advance], then [grow] on the
    node it returned. *)
Definition grown0 : option (Snake.t * Heap) :=
  '(oldTail, s1, h1) ← advance snake0.1 snake0.2;
  grow s1 oldTail h1.

(** ** What the specification says of the chain *)

(** From the head, the [prev] links reach the tail and visit exactly
    [length] distinct segments. *)
Definition prev_chain_complete (s : Snake.t) (h : Heap) : Prop :=
  ∃ l, lseg Node.prev h (Snake.head s) l None ∧ NoDup l ∧
       last l = Snake.tail s ∧ Z.of_nat (length l) = Snake.length s.

(** The exact opposite of a heading. *)
Definition opposite (d : Direction) : Direction :=
  match d with NORTH => SOUTH | SOUTH => NORTH | EAST => WEST | WEST => EAST end.

(** The position stored at a location (the origin where nothing is
    allocated; chains are read at allocated locations only). *)
Definition pos_at (h : Heap) (a : loc) : Point.t :=
  default (Point.mk 0 0) (Node.pos <$> h !! a).

Definition positions (h : Heap) (l : list loc) : list Point.t := pos_at h <$> l.

(** The two loops of [selfCollision] read off the positions along the
    [prev] chain, head first: the position of the first segment that
    coincides with a segment closer to the tail. *)
Fixpoint first_repeated (ps : list Point.t) : option Point.t :=
  match ps with
  | [] => None
  | p :: ps' => if bool_decide (p ∈ ps') then Some p else first_repeated ps'
  end.

(** The scan in the specification's words: each segment is compared with
    the segments strictly closer to the tail than its immediate predecessor,
    so the inner scan skips that predecessor. *)
Fixpoint spec_selfCollision (ps : list Point.t) : option Point.t :=
  match ps with
  | [] => None
  | p :: ps' =>
      if bool_decide (p ∈ drop 1 ps') then Some p else spec_selfCollision ps'
  end.

(** ** Outcomes of the parts that wait for input

    [rand()] and the dialog's answers come from finite tapes.  A run
    [Returns], or is still [Pending] when its tape ends (a loop that has not
    left yet), or is [Undefined] (a NULL or dangling pointer, an index
    outside the grid, a division by zero). *)
Inductive outcome (A : Type) : Type :=
| Returns (a : A)
| Pending
| Undefined.

Arguments Returns {A} a.
Arguments Pending {A}.
Arguments Undefined {A}.

#[global] Instance outcome_ret : MRet outcome := λ A a, Returns a.

#[global] Instance outcome_bind : MBind outcome := λ A B k m,
  match m with
  | Returns a => k a
  | Pending => Pending
  | Undefined => Undefined
  end.

(** A step that fails only by undefined behaviour. *)
Definition defined {A} (o : option A) : outcome A :=
  match o with
  | Some a => Returns a
  | None => Undefined
  end.

(** ** screen.c *)

(** [typedef enum { INCREMENTAL, EASY, MEDIUM, HARD } Difficulty] (screen.h) *)
Inductive Difficulty : Set := INCREMENTAL | EASY | MEDIUM | HARD.

Module Screen.
(** The fields screen.c and main.c read and write.  [grid] is the array of
    rows, [grid[y][x]]; [orb] is [None] until [spawnOrb] has written it
    ([malloc] leaves it indeterminate). *)
Record t : Set := mk {
  width : Z; height : Z;
  mapWidth : Z; mapHeight : Z;
  playingSurface : Z;
  offset : Point.t;
  grid : list (list Z);
  orb : option Point.t
}.

Definition set_grid (g : list (list Z)) (s : t) : t :=
  mk (width s) (height s) (mapWidth s) (mapHeight s) (playingSurface s)
     (offset s) g (orb s).

Definition set_orb (p : Point.t) (s : t) : t :=
  mk (width s) (height s) (mapWidth s) (mapHeight s) (playingSurface s)
     (offset s) (grid s) (Some p).
End Screen.

(** [grid[y][x]], undefined outside the allocated rows and columns. *)
Definition grid_get (g : list (list Z)) (y x : Z) : option Z :=
  if (0 <=? y) && (0 <=? x) then
    row ← g !! Z.to_nat y;
    row !! Z.to_nat x
  else None.

(** [grid[y][x] = v] *)
Definition grid_set (g : list (list Z)) (y x v : Z) : option (list (list Z)) :=
  if (0 <=? y) && (0 <=? x) then
    row ← g !! Z.to_nat y;
    _ ← row !! Z.to_nat x;
    Some (<[Z.to_nat y := <[Z.to_nat x := v]> row]> g)
  else None.

(** [Screen *newScreen(void)]; [maxx] and [maxy] are [getmaxx(stdscr)] and
    [getmaxy(stdscr)].  C's [/] on ints is [Z.quot]. *)
Definition newScreen (maxx maxy : Z) : Screen.t :=
  let width := maxx - 1 in
  let height := maxy - 1 in
  let mapWidth := Z.quot width 4 in
  let mapHeight := Z.quot (height * 2) 3 in
  Screen.mk width height mapWidth mapHeight (mapWidth * mapHeight)
    (Point.mk (Z.quot (width - mapWidth * 2) 2) (Z.quot (height - mapHeight) 2))
    (replicate (Z.to_nat (mapHeight + 1)) (replicate (Z.to_nat (mapWidth + 1)) 0))
    None.

(** [bool insideBoundaries(const Screen *self, const Snake *snake)] *)
Definition insideBoundaries (self : Screen.t) (snake : Snake.t) (h : Heap)
  : option bool :=
  hd ← Snake.head snake;
  hn ← h !! hd;
  Some ((Point.x (Node.pos hn) <=? Screen.mapWidth self) &&
        (0 <=? Point.x (Node.pos hn)) &&
        (Point.y (Node.pos hn) <=? Screen.mapHeight self) &&
        (0 <=? Point.y (Node.pos hn))).

(** [void spawnOrb(Screen *self)]: the do-while loop; every pass draws two
    numbers from the tape of [rand()] results.  C's [%] is [Z.rem]. *)
Fixpoint spawnOrb (tape : list N) (self : Screen.t)
  : outcome (Screen.t * list N) :=
  match tape with
  | r1 :: r2 :: tape' =>
      if (Screen.mapWidth self + 1 =? 0) || (Screen.mapHeight self + 1 =? 0)
      then Undefined
      else
        let x := Z.rem (Z.of_N r1) (Screen.mapWidth self + 1) in
        let y := Z.rem (Z.of_N r2) (Screen.mapHeight self + 1) in
        let self1 := Screen.set_orb (Point.mk x y) self in
        cell ← defined (grid_get (Screen.grid self1) y x);
        if cell =? 1 then spawnOrb tape' self1
        else Returns (self1, tape')
  | _ => Pending
  end.

(** [void draw(...)] of screen.c, with the arguments main.c passes: the
    growth flag and the old tail.  screen.c reads the old tail's position
    from a copy; main.c passes the node, which it has freed by then when the
    snake did not grow.  The model takes the position, read before the node
    is freed. *)
Definition draw (self : Screen.t) (snake : Snake.t) (growing : bool)
    (oldTail : Point.t) (h : Heap) : option Screen.t :=
  (* cover the old tail if the snake has not grown *)
  g1 ← (if growing then Some (Screen.grid self)
        else grid_set (Screen.grid self) (Point.y oldTail) (Point.x oldTail) 0);
  (* draw the new head, and the segment behind it if there is one *)
  hd ← Snake.head snake;
  hn ← h !! hd;
  _ ← match Node.prev hn with
      | Some p => Node.pos <$> h !! p
      | None => Some (Node.pos hn)
      end;
  g2 ← grid_set g1 (Point.y (Node.pos hn)) (Point.x (Node.pos hn)) 1;
  Some (Screen.set_grid g2 self).

(** ** main.c *)

(** *** binary32 arithmetic ([float]) *)

Definition float_of_Z (z : Z) : spec_float := binary_normalize 24 128 z 0 false.

Definition float_div (a b : spec_float) : spec_float := SFdiv 24 128 a b.

Definition float_mul (a b : spec_float) : spec_float := SFmul 24 128 a b.

(** [(unsigned)f]: the value truncated toward zero, undefined when that is
    not an [unsigned] (32 bits). *)
Definition unsigned_of_float (f : spec_float) : option Z :=
  match f with
  | S754_zero _ => Some 0
  | S754_finite s m e =>
      let magnitude := Z.shiftl (Z.pos m) e in
      if s then (if magnitude =? 0 then Some 0 else None)
      else if magnitude <? 2 ^ 32 then Some magnitude else None
  | _ => None
  end.

(** The [timespec] constants of [main], in nanoseconds. *)
Definition delayMin : Z := 33333333.
Definition delayMedium : Z := 50000000.
Definition delayMax : Z := 83333333.
Definition delayDiff : Z := delayMax - delayMin.

(** [progress = (float)snake->length / (screen->mapWidth * screen->mapHeight)] *)
Definition progress_update (length mapWidth mapHeight : Z) : spec_float :=
  float_div (float_of_Z length) (float_of_Z (mapWidth * mapHeight)).

(** The progress the specification describes: the length over the number
    of cells of the field, [(width+1)*(height+1)]. *)
Definition spec_progress (length mapWidth mapHeight : Z) : spec_float :=
  float_div (float_of_Z length) (float_of_Z ((mapWidth + 1) * (mapHeight + 1))).

(** The switch on [difficulty] at the end of a frame: the [tv_nsec] handed
    to [thrd_sleep].  [tv_nsec] is a [long] of 64 bits, so the [unsigned] is
    subtracted without wrapping. *)
Definition frame_delay (difficulty : Difficulty) (progress : spec_float)
  : option Z :=
  match difficulty with
  | INCREMENTAL =>
      u ← unsigned_of_float (float_mul (float_of_Z delayDiff) progress);
      Some (delayMax - u)
  | EASY => Some delayMax
  | MEDIUM => Some delayMedium
  | HARD => Some delayMin
  end.

(** *** The frame loop *)

(** What [getch()] returned, by the case of the switch it selects. *)
Inductive Key : Set := KeyNorth | KeyEast | KeySouth | KeyWest | KeyQuit | KeyNone.

(** The calls a frame makes, in the order it makes them. *)
Inductive Event : Set :=
| EvChangeDirection (d : Direction)
| EvAdvance
| EvGrow
| EvDestroyNode
| EvSpawnOrb (orb : option Point.t)
| EvUpdateScore (score : Z)
| EvInsideBoundaries (inside : bool)
| EvDraw
| EvDrawPoint (p : Point.t)
| EvSelfCollision (hit : option Point.t)
| EvDialog (score : Z)
| EvDrawWalls
| EvSleep (tv_nsec : Z).

Module Game.
(** The locals of [main], the node heap, and the inputs still to come:
    the results of [rand()] and the answers (quit?, difficulty) of the
    dialog. *)
Record t : Type := mk {
  screen : Screen.t;
  snake : Snake.t;
  heap : Heap;
  collision : Point.t;
  progress : spec_float;
  difficulty : Difficulty;
  wallCollision : bool;
  quit : bool;
  tape : list N;
  answers : list (bool * Difficulty)
}.
End Game.

(** [dialog(...)]: blocks until the player answers. *)
Definition dialog (answers : list (bool * Difficulty))
  : outcome (bool * Difficulty * list (bool * Difficulty)) :=
  match answers with
  | a :: answers' => Returns (a, answers')
  | [] => Pending
  end.

(** [rand()] *)
Definition rand (tape : list N) : outcome (N * list N) :=
  match tape with
  | r :: tape' => Returns (r, tape')
  | [] => Pending
  end.

(** The centre [(Point){screen->mapWidth / 2, screen->mapHeight / 2}]. *)
Definition center (s : Screen.t) : Point.t :=
  Point.mk (Z.quot (Screen.mapWidth s) 2) (Z.quot (Screen.mapHeight s) 2).

(** [main] up to its loop (main.c 32-46); [term] is the terminal's size. *)
Definition start (term : Z * Z) (tape : list N)
    (answers : list (bool * Difficulty)) : outcome (Game.t * list Event) :=
  let screen := newScreen term.1 term.2 in
  '(r, tape1) ← rand tape;
  let '(snake, h) := newSnake (center screen) r ∅ in
  (* bool quit = dialog(screen, &difficulty, false, 0, (Point){0, 0}) *)
  '(quit, difficulty, answers1) ← dialog answers;
  (* drawWalls(screen); spawnOrb(screen); updateScore(screen, snake->length) *)
  '(screen1, tape2) ← spawnOrb tape1 screen;
  Returns
    (Game.mk screen1 snake h (Point.mk (-1) (-1)) (S754_zero false) difficulty
       false quit tape2 answers1,
     [EvDialog 0; EvDrawWalls; EvSpawnOrb (Screen.orb screen1);
      EvUpdateScore (Snake.length snake)]).

(** The switch on [getch()] (main.c 50-73): the snake and the quit flag
    after it. *)
Definition handle_key (key : Key) (snake : Snake.t) (quit : bool)
  : Snake.t * bool * list Event :=
  match key with
  | KeyNorth => (changeDirection snake NORTH, quit, [EvChangeDirection NORTH])
  | KeyEast => (changeDirection snake EAST, quit, [EvChangeDirection EAST])
  | KeySouth => (changeDirection snake SOUTH, quit, [EvChangeDirection SOUTH])
  | KeyWest => (changeDirection snake WEST, quit, [EvChangeDirection WEST])
  | KeyQuit => (snake, true, [])
  | KeyNone => (snake, quit, [])
  end.

(** The body of the main loop (main.c 50-126).  [draw] is given the old
    tail's position as [advance] left it (screen.c's [draw] reads a copy of
    it); the red point of a wall collision (main.c 91-93) reads
    [oldTail->pos] from the heap as it is then, after [destroyNode] when the
    snake did not grow: a read of a freed node, undefined.
    The fuel [S (size h)] is enough for every chain without a cycle. *)
Definition frame (term : Z * Z) (key : Key) (g : Game.t)
  : outcome (Game.t * list Event) :=
  (* switch (getch()) *)
  let '(snake1, quit1, ev1) := handle_key key (Game.snake g) (Game.quit g) in
  (* Node *oldTail = advance(snake) *)
  '(oldTail, snake2, h2) ← defined (advance snake1 (Game.heap g));
  oldTailPos ← defined (t ← oldTail; Node.pos <$> h2 !! t);
  headPos ← defined (hd ← Snake.head snake2; Node.pos <$> h2 !! hd);
  orb ← defined (Screen.orb (Game.screen g));
  (* if the head is on the orb: grow, mark the cell, spawn a new orb,
     update progress and the score; else free the old tail *)
  '(growing, snake3, h3, screen3, tape3, progress3, ev3) ←
    (if (Point.x headPos =? Point.x orb) && (Point.y headPos =? Point.y orb)
     then
       '(snake3, h3) ← defined (grow snake2 oldTail h2);
       grid3 ← defined (grid_set (Screen.grid (Game.screen g))
                          (Point.y oldTailPos) (Point.x oldTailPos) 1);
       '(screen3, tape3) ←
         spawnOrb (Game.tape g) (Screen.set_grid grid3 (Game.screen g));
       Returns (true, snake3, h3, screen3, tape3,
                progress_update (Snake.length snake3)
                  (Screen.mapWidth screen3) (Screen.mapHeight screen3),
                [EvGrow; EvSpawnOrb (Screen.orb screen3);
                 EvUpdateScore (Snake.length snake3)])
     else
       h3 ← defined (destroyNode oldTail h2);
       Returns (false, snake2, h3, Game.screen g, Game.tape g,
                Game.progress g, [EvDestroyNode]));
  (* if (!(wallCollision = !insideBoundaries(screen, snake))) draw(...)
     else drawPoint(...) *)
  inside ← defined (insideBoundaries screen3 snake3 h3);
  let wallCollision := negb inside in
  '(screen4, ev4) ←
    (if inside then
       screen4 ← defined (draw screen3 snake3 growing oldTailPos h3);
       Returns (screen4, [EvDraw])
     else
       p ← defined (if 1 <? Snake.length snake3
                    then hd ← Snake.head snake3;
                         hn ← h3 !! hd;
                         pv ← Node.prev hn;
                         Node.pos <$> h3 !! pv
                    else t ← oldTail;
                         Node.pos <$> h3 !! t);
       Returns (screen3, [EvDrawPoint p]));
  (* wallCollision || selfCollision(snake, &collision) *)
  '(hit, collision5, ev5) ←
    (if wallCollision then Returns (true, Game.collision g, [])
     else
       r ← defined (selfCollision (S (size h3)) snake3 h3);
       Returns (match r with
                | Some p => (true, p, [EvSelfCollision r])
                | None => (false, Game.collision g, [EvSelfCollision r])
                end));
  (* ... && !(quit = dialog(...)): reset the game *)
  '(g6, ev6) ←
    (if hit : bool then
       '(quit6, difficulty6, answers6) ← dialog (Game.answers g);
       if quit6 : bool then
         Returns (Game.mk screen4 snake3 h3 collision5 progress3 difficulty6
                    wallCollision true tape3 answers6,
                  [EvDialog (Snake.length snake3)])
       else
         let screen6 := newScreen term.1 term.2 in
         '(screen7, tape7) ← spawnOrb tape3 screen6;
         h7 ← defined (destroySnake (S (size h3)) (Some snake3) h3);
         '(r, tape8) ← rand tape7;
         let '(snake8, h8) := newSnake (center screen7) r h7 in
         Returns (Game.mk screen7 snake8 h8 (Point.mk (-1) (-1))
                    (S754_zero false) difficulty6 wallCollision false tape8
                    answers6,
                  [EvDialog (Snake.length snake3); EvDrawWalls;
                   EvSpawnOrb (Screen.orb screen7);
                   EvUpdateScore (Snake.length snake8)])
     else
       Returns (Game.mk screen4 snake3 h3 collision5 progress3
                  (Game.difficulty g) wallCollision quit1 tape3
                  (Game.answers g),
                []));
  (* switch (difficulty): thrd_sleep *)
  ns ← defined (frame_delay (Game.difficulty g6) (Game.progress g6));
  Returns (g6,
           ev1 ++ [EvAdvance] ++ ev3 ++ [EvInsideBoundaries inside] ++ ev4
               ++ ev5 ++ ev6 ++ [EvSleep ns]).

(** [while (!quit) { ... }], one key per frame, for as many frames as there
    are keys. *)
Fixpoint run (term : Z * Z) (keys : list Key) (g : Game.t)
  : outcome (Game.t * list Event) :=
  match keys with
  | [] => Returns (g, [])
  | key :: keys' =>
      if Game.quit g then Returns (g, [])
      else
        '(g1, ev1) ← frame term key g;
        '(g2, ev2) ← run term keys' g1;
        Returns (g2, ev1 ++ ev2)
  end.

(** The same switch in the repository's other copy of [main]
    (src/unnamed/part_001, lines 40-63): there ['q'] is [goto QUIT], which
    leaves the loop before anything else in the frame runs. *)
Definition handle_key_goto (key : Key) (snake : Snake.t)
  : option (Snake.t * list Event) :=
  match key with
  | KeyNorth => Some (changeDirection snake NORTH, [EvChangeDirection NORTH])
  | KeyEast => Some (changeDirection snake EAST, [EvChangeDirection EAST])
  | KeySouth => Some (changeDirection snake SOUTH, [EvChangeDirection SOUTH])
  | KeyWest => Some (changeDirection snake WEST, [EvChangeDirection WEST])
  | KeyQuit => None
  | KeyNone => Some (snake, [])
  end.

(** ** The field, as spawnOrb sees it *)

(** The point one pass of the loop of [spawnOrb] samples from two results
    of [rand()]. *)
Definition candidate (self : Screen.t) (r1 r2 : N) : Point.t :=
  Point.mk (Z.rem (Z.of_N r1) (Screen.mapWidth self + 1))
           (Z.rem (Z.of_N r2) (Screen.mapHeight self + 1)).

(** The cells of the field: [0..mapWidth] by [0..mapHeight]. *)
Definition in_field (self : Screen.t) (p : Point.t) : Prop :=
  0 ≤ Point.x p ≤ Screen.mapWidth self ∧ 0 ≤ Point.y p ≤ Screen.mapHeight self.

(** [grid[y][x] == 1] *)
Definition occupied (self : Screen.t) (p : Point.t) : Prop :=
  grid_get (Screen.grid self) (Point.y p) (Point.x p) = Some 1.

Definition free_cell (self : Screen.t) (p : Point.t) : Prop :=
  ∃ c, grid_get (Screen.grid self) (Point.y p) (Point.x p) = Some c ∧ c ≠ 1.

(** The results of [rand()] that a sequence of passes consumes. *)
Definition samples (passes : list (N * N)) : list N :=
  flat_map (λ rr, [rr.1; rr.2]) passes.

(** A field of two by two cells, all occupied; and one of two cells with
    the second free. *)
Definition full_screen : Screen.t :=
  Screen.mk 7 2 1 1 1 (Point.mk 2 0) [[1; 1]; [1; 1]] None.

Definition one_free_screen : Screen.t :=
  Screen.mk 7 1 1 0 0 (Point.mk 2 0) [[1; 0]] None.

(** ** The grid and the snake *)

(** The grid mirrors the snake: a cell of the field holds 1 exactly when
    one of the segments, from the tail along [next], lies on it. *)
Definition grid_mirrors_snake (g : Game.t) : Prop :=
  ∀ p, in_field (Game.screen g) p →
    (occupied (Game.screen g) p ↔
     ∃ l a, lseg Node.next (Game.heap g) (Snake.tail (Game.snake g)) l None ∧
            a ∈ l ∧ pos_at (Game.heap g) a = p).

(** A round on a terminal of 80 by 24: [rand()] gives 1 for the direction,
    then 9 and 7 to [spawnOrb]; the player starts the game in the welcome
    dialog. *)
Definition round0 : outcome (Game.t * list Event) :=
  start (80, 24) [1; 9; 7; 3; 4; 2]%N [(false, INCREMENTAL); (false, INCREMENTAL)].

(** That round after the given keys, one per frame. *)
Definition round0_after (keys : list Key) : outcome (Game.t * list Event) :=
  g ← round0; run (80, 24) keys g.1.

(** A round whose first orb lies one cell east of the centre, so that the
    first frame eats it. *)
Definition round1 : outcome (Game.t * list Event) :=
  start (80, 24) [1; 10; 7; 3; 4]%N [(false, INCREMENTAL)].

(** A round in which the snake eats three orbs in a row to the east; the
    fourth orb is spawned at (12, 7), the cell the head has just entered
    (its grid entry is written by [draw], after [spawnOrb]). *)
Definition round2 : outcome (Game.t * list Event) :=
  start (80, 24) [1; 10; 7; 11; 7; 12; 7; 12; 7; 0; 0]%N [(false, INCREMENTAL)].

(** The keys that lead the snake of [round2] around a square of two by two
    cells and back onto the orb, while its tail lies there. *)
Definition keys2 : list Key :=
  [KeyNone; KeyNone; KeyNone; KeySouth; KeyWest; KeyNorth; KeyEast].

(** A round in which the snake eats the first orb, one cell east of the
    centre, and may then play a second round: [rand()] gives two more
    cells and a direction, and the player answers both dialogs with play. *)
Definition round3 : outcome (Game.t * list Event) :=
  start (80, 24) [1; 10; 7; 3; 4; 5; 5; 2]%N
    [(false, INCREMENTAL); (false, INCREMENTAL)].

(** The keys that take the snake of [round3] over the orb and then north
    up to the row 0. *)
Definition keys3 : list Key :=
  [KeyNone; KeyNorth; KeyNone; KeyNone; KeyNone; KeyNone; KeyNone; KeyNone].

(** ** Neighbouring segments *)

(** Along a list of positions, each one is the one before it moved one
    cell in some direction. *)
Definition stepwise (ps : list Point.t) : Prop :=
  ∀ l1 p q l2, ps = l1 ++ p :: q :: l2 → ∃ d, q = step d p.

(** The border cell from which a step in direction [d] leaves the field. *)
Definition on_facing_border (self : Screen.t) (d : Direction) (p : Point.t)
  : Prop :=
  match d with
  | NORTH => Point.y p = 0
  | EAST => Point.x p = Screen.mapWidth self
  | SOUTH => Point.y p = Screen.mapHeight self
  | WEST => Point.x p = 0
  end.

(** ** The field on the terminal *)

(** [static int translate(const int x)] *)
Definition translate (x : Z) : Z := x + x + 1.

(** [void drawPoint(const Screen *self, const Point pos, const int color)]:
    the cells (row, column) of the terminal that the two blocks printed by
    [mvprintw] cover. *)
Definition drawPoint (self : Screen.t) (pos : Point.t) : list (Z * Z) :=
  let row := Point.y pos + Point.y (Screen.offset self) in
  let col := translate (Point.x pos) + Point.x (Screen.offset self) in
  [(row, col); (row, col + 1)].

(** [void drawWalls(const Screen *self)]: the cells its two loops print
    on, in the order they do. *)
Definition drawWalls (self : Screen.t) : list (Z * Z) :=
  let northWest :=
    Point.mk (Point.x (Screen.offset self)) (Point.y (Screen.offset self) - 1) in
  let southEast :=
    Point.mk (translate (Screen.mapWidth self) + Point.x (Screen.offset self) + 2)
             (Screen.mapHeight self + Point.y (Screen.offset self) + 1) in
  (i ← seqZ (Point.x northWest) (Point.x southEast - Point.x northWest + 1);
   [(Point.y northWest, i); (Point.y southEast, i)])
  ++
  (j ← seqZ (Point.y northWest + 1) (Point.y southEast - (Point.y northWest + 1));
   [(j, Point.x northWest); (j, Point.x southEast)]).

(** [grid[y][x]] is allocated exactly on the cells of the field. *)
Definition grid_shaped (self : Screen.t) : Prop :=
  ∀ y x, is_Some (grid_get (Screen.grid self) y x)
         ↔ in_field self (Point.mk x y).

(** ** States of the game between two frames *)

(** What a run establishes: [wp U m Q] holds when the result of [m], if it
    returns, satisfies [Q], and [U] is the case if it meets undefined
    behaviour; with [False] for [U] the run meets none. *)
Definition wp {A} (U : Prop) (m : outcome A) (Q : A → Prop) : Prop :=
  match m with
  | Returns a => Q a
  | Pending => True
  | Undefined => U
  end.






(** ** screen.c: the keys of the dialog *)

(** The kinds of dialog that open when a round has ended.  (The welcome
    dialog runs the same loop and also animates a decoration through
    [updateDoodle], which calls [ouroboros]; that function is not among the
    sources, and the welcome kind is left out.) *)
Inductive DialogKind : Set := OVER | WIN.

(** What [getch()] returned in [dialog], by the case of the switch it
    selects: ['\n'] or ['y']; ['>'] or [KEY_RIGHT]; ['<'] or [KEY_LEFT];
    ['n'] or ['q']; anything else. *)
Inductive DialogKey : Set :=
  DialogPlay | DialogRight | DialogLeft | DialogQuit | DialogOther.

#[global] Instance DialogKey_eq_dec : EqDecision DialogKey.
Proof. solve_decision. Defined.

Definition Difficulty_code (d : Difficulty) : Z :=
  match d with INCREMENTAL => 0 | EASY => 1 | MEDIUM => 2 | HARD => 3 end.

(** The cases ['>'] and ['<'] of the switch:
    [if (kind != WIN && *difficulty != HARD) ++*difficulty] and
    [if (kind != WIN && *difficulty != INCREMENTAL) --*difficulty]. *)
Definition dialog_difficulty (kind : DialogKind) (difficulty : Difficulty)
    (key : DialogKey) : Difficulty :=
  match key, kind, difficulty with
  | DialogRight, OVER, INCREMENTAL => EASY
  | DialogRight, OVER, EASY => MEDIUM
  | DialogRight, OVER, MEDIUM => HARD
  | DialogLeft, OVER, EASY => INCREMENTAL
  | DialogLeft, OVER, MEDIUM => EASY
  | DialogLeft, OVER, HARD => MEDIUM
  | _, _, _ => difficulty
  end.

(** The loop [while (true) { switch (getch()) ... }] of [dialog]
    (screen.c 345-376) for these kinds, where [doodle] is NULL and
    [destroySnake(doodle)] does nothing: the value returned, the difficulty
    left in [*difficulty], and the keys not read. *)
Fixpoint dialog_loop (kind : DialogKind) (keys : list DialogKey)
    (difficulty : Difficulty) : outcome (bool * Difficulty * list DialogKey) :=
  match keys with
  | [] => Pending
  | DialogPlay :: keys' => Returns (false, difficulty, keys')
  | DialogQuit :: keys' => Returns (true, difficulty, keys')
  | key :: keys' => dialog_loop kind keys' (dialog_difficulty kind difficulty key)
  end.

(** ** screen.c: prepareGame *)

#[global] Instance Key_eq_dec : EqDecision Key.
Proof. solve_decision. Defined.

(** The direction a key stands for, if any. *)
Definition key_direction (key : Key) : option Direction :=
  match key with
  | KeyNorth => Some NORTH
  | KeyEast => Some EAST
  | KeySouth => Some SOUTH
  | KeyWest => Some WEST
  | KeyQuit | KeyNone => None
  end.

(** The switch on [getch()] of [prepareGame] (screen.c 162-185); [getch()]
    waits for a key here, and a key without a case ([KeyNone]) leads back
    to [getUserInput].  The direction is assigned to [snake->direction]
    directly. *)
Fixpoint prepareGame_keys (keys : list Key) (snake : Snake.t)
  : outcome (bool * Snake.t * list Key) :=
  let heading d :=
    Snake.mk (Snake.head snake) (Snake.tail snake) d (Snake.length snake) in
  match keys with
  | [] => Pending
  | KeyNorth :: keys' => Returns (false, heading NORTH, keys')
  | KeyEast :: keys' => Returns (false, heading EAST, keys')
  | KeySouth :: keys' => Returns (false, heading SOUTH, keys')
  | KeyWest :: keys' => Returns (false, heading WEST, keys')
  | KeyQuit :: keys' => Returns (true, snake, keys')
  | KeyNone :: keys' => prepareGame_keys keys' snake
  end.

(** [bool prepareGame(Screen *self, Snake *snake)]: [spawnOrb], the head's
    position read for [drawPoint], then the keys.  It returns the flag, the
    screen, the snake, and what is left of the results of [rand()] and of
    the keys. *)
Definition prepareGame (tape : list N) (keys : list Key) (self : Screen.t)
    (snake : Snake.t) (h : Heap)
  : outcome (bool * Screen.t * Snake.t * list N * list Key) :=
  '(self1, tape1) ← spawnOrb tape self;
  _ ← defined (hd ← Snake.head snake; Node.pos <$> h !! hd);
  '(quit, snake1, keys1) ← prepareGame_keys keys snake;
  Returns (quit, self1, snake1, tape1, keys1).

(** * Properties *)

Example newSnake_runs :
  snake0 = (Snake.mk (Some 1%positive) (Some 1%positive) EAST 1,
            {[ 1%positive := Node.mk center0 None None ]}).
Proof. vm_compute. reflexivity. Qed.

(** ** Chains of nodes *)

Section Chains.
Variable link : Node.t → option loc.

Lemma lseg_app h p l1 l2 q :
  lseg link h p (l1 ++ l2) q ↔ ∃ m, lseg link h p l1 m ∧ lseg link h m l2 q.
Proof.
  revert p. induction l1 as [|a l1 IH]; intros p; simpl.
  - split; [intros H; exists p; auto | intros (m & -> & H); exact H].
  - split.
    + intros (-> & n & Hn & H). apply IH in H as (m & H1 & H2).
      exists m. eauto 6.
    + intros (m & (-> & n & Hn & H1) & H2). split; [done|].
      exists n. split; [done|]. apply IH. eauto.
Qed.

Lemma lseg_cons h p a l q :
  lseg link h p (a :: l) q ↔
  p = Some a ∧ ∃ nx, link <$> h !! a = Some nx ∧ lseg link h nx l q.
Proof.
  simpl. split.
  - intros (-> & n & Hn & H). split; [done|]. exists (link n).
    by rewrite Hn.
  - intros (-> & nx & Hn & H). split; [done|].
    destruct (h !! a) as [n|]; [|done]. injection Hn as <-. eauto.
Qed.

Lemma lseg_snoc h p l a q :
  lseg link h p (l ++ [a]) q ↔ lseg link h p l (Some a) ∧ link <$> h !! a = Some q.
Proof.
  rewrite lseg_app. split.
  - intros (m & H1 & H2). apply lseg_cons in H2 as (-> & nx & Hn & <-).
    done.
  - intros (H1 & Hn). exists (Some a). split; [done|].
    apply lseg_cons. split; [done|]. by exists q.
Qed.

(** A chain only reads the link field of the nodes it visits. *)
Lemma lseg_ext h h' p l q :
  (∀ a, a ∈ l → link <$> (h' !! a) = link <$> (h !! a)) →
  lseg link h p l q → lseg link h' p l q.
Proof.
  revert p. induction l as [|a l IH]; intros p Hl; simpl; [done|].
  intros (-> & n & Hn & H). split; [done|].
  assert (Ha : link <$> (h' !! a) = link <$> (h !! a)) by (apply Hl; left).
  rewrite Hn in Ha. destruct (h' !! a) as [n'|] eqn:Hn'; [|done].
  injection Ha as Ha. exists n'. split; [done|]. rewrite Ha.
  apply IH; [|done].
  intros b Hb. apply Hl. by right.
Qed.

(** Where a walk ends in NULL, the list it visits is determined. *)
Lemma lseg_det h p l l' :
  lseg link h p l None → lseg link h p l' None → l = l'.
Proof.
  revert p l'. induction l as [|a l IH]; intros p [|a' l']; simpl.
  - done.
  - intros -> (? & _); done.
  - intros (-> & _) ?; done.
  - intros (-> & n & Hn & H) (? & n' & Hn' & H'). simplify_eq.
    f_equal. eapply IH; eauto.
Qed.

Lemma walk_lseg fuel h p l : walk link fuel h p = Some l → lseg link h p l None.
Proof.
  revert p l. induction fuel as [|fuel IH]; intros [a|] l; simpl;
    try (intros; simplify_eq/=; done).
  intros H. destruct (h !! a) as [n|] eqn:Hn; simplify_eq/=.
  destruct (walk link fuel h (link n)) as [l0|] eqn:Hw; simplify_eq/=.
  split; [done|]. eauto.
Qed.

Lemma lseg_walk fuel h p l :
  lseg link h p l None → (length l ≤ fuel)%nat → walk link fuel h p = Some l.
Proof.
  revert p fuel. induction l as [|a l IH]; intros p fuel; simpl.
  - intros -> _. by destruct fuel.
  - intros (-> & n & Hn & H) Hf. destruct fuel as [|fuel]; [lia|].
    simpl. rewrite Hn. simpl. rewrite (IH _ fuel H); [done|lia].
Qed.
End Chains.

Lemma lseg_allocated link h p l q a :
  lseg link h p l q → a ∈ l → is_Some (h !! a).
Proof.
  revert p. induction l as [|b l IH]; intros p; simpl.
  - intros _ Ha. by apply elem_of_nil in Ha.
  - intros (-> & n & Hn & H) Ha. apply elem_of_cons in Ha as [->|Ha]; eauto.
Qed.

Lemma malloc_fresh (h : Heap) : h !! malloc h = None.
Proof. apply not_elem_of_dom. unfold malloc. apply is_fresh. Qed.

Lemma last_cons_elem_of {A} (a : A) (l : list A) (z : A) :
  last (a :: l) = Some z → l = [] ∧ z = a ∨ z ∈ l ∧ last l = Some z.
Proof.
  destruct l as [|b l]; simpl.
  - intros [= ->]. by left.
  - intros H. right. split; [|done]. by apply last_Some_elem_of.
Qed.

(** What one call of [advance] does to a snake of that shape: the result,
    and every node's fields afterwards. *)
Lemma advance_run s h t rest b :
  snake_inv s h t rest b →
  ∃ hd hn h',
    Snake.head s = Some hd ∧ h !! hd = Some hn ∧
    advance s h =
      Some (Some t,
            Snake.mk (Some (malloc h)) (Some (default (malloc h) (head rest)))
              (Snake.direction s) (Snake.length s),
            h') ∧
    (∀ a, Node.next <$> h' !! a =
          if decide (a = hd) then Some (Some (malloc h))
          else if decide (a = malloc h) then Some None
          else Node.next <$> h !! a) ∧
    (∀ a, Node.prev <$> h' !! a =
          if decide (a = default (malloc h) (head rest)) then Some None
          else if decide (a = malloc h) then Some (Some hd)
          else Node.prev <$> h !! a) ∧
    (∀ a, Node.pos <$> h' !! a =
          if decide (a = malloc h)
          then Some (step (Snake.direction s) (Node.pos hn))
          else Node.pos <$> h !! a).
Proof.
  intros [Hnd Ht Hh Hlen Hnext Hprev Htp].
  pose proof (malloc_fresh h) as Hfresh.
  destruct (last (t :: rest)) as [hd|] eqn:Hlast;
    [|by apply last_None in Hlast].
  assert (Hhd : is_Some (h !! hd)).
  { eapply lseg_allocated; [exact Hnext|]. by apply last_Some_elem_of. }
  destruct Hhd as [hn Hhn]. exists hd, hn.
  assert (Hne : hd ≠ malloc h) by (intros ->; congruence).
  simpl in Hnext. destruct Hnext as (_ & tn & Htn & Hrest).
  unfold advance, newNode. rewrite Hh, Ht. simpl. rewrite Hhn. simpl.
  rewrite lookup_insert_ne, Hhn by done. simpl.
  rewrite lookup_insert_eq. simpl.
  apply last_cons_elem_of in Hlast as [[-> ->]|[Hin Hlast]].
  - (* one segment: the head is the tail *)
    rewrite lookup_insert_eq. simpl.
    rewrite lookup_insert_ne, lookup_insert_eq by done. simpl.
    eexists. split; [done|]. split; [done|]. split; [reflexivity|].
    split; [|split]; intros a; rewrite !lookup_insert;
      repeat case_decide; simplify_eq/=; try done; by rewrite Htn.
  - (* the tail's next segment becomes the tail *)
    destruct rest as [|t' rest']; [by apply elem_of_nil in Hin|].
    simpl in Hrest. destruct Hrest as (Hnt & tn' & Htn' & _).
    assert (t ≠ hd) by (intros ->; apply NoDup_cons in Hnd as [? _]; done).
    assert (t ≠ malloc h) by (intros ->; congruence).
    assert (t' ≠ malloc h) by (intros ->; congruence).
    rewrite lookup_insert_ne, lookup_insert_ne, Htn by done. simpl.
    rewrite Hnt. simpl.
    destruct (<[hd:=Node.set_next (Some (malloc h)) hn]>
                (<[malloc h:=Node.mk (step (Snake.direction s) (Node.pos hn))
                               (Some hd) None]> h) !! t') as [x|] eqn:Hx.
    2:{ rewrite lookup_insert in Hx. case_decide; [done|].
        rewrite lookup_insert_ne in Hx by done. congruence. }
    simpl. eexists. split; [done|]. split; [done|]. split; [reflexivity|].
    rewrite lookup_insert in Hx.
    split; [|split]; intros a; rewrite !lookup_insert;
      repeat case_decide; simplify_eq/=; try done;
      try (rewrite ?lookup_insert_ne in Hx by done; simplify_eq/=);
      try (by rewrite ?Hhn, ?Htn'); try (by rewrite ?Hx).
Qed.

(** [advance] keeps the shape: the segments after the tail, then the new
    head, with every [prev] link in place. *)
Lemma advance_inv s h t rest b :
  snake_inv s h t rest b →
  ∃ s' h' t' rest',
    advance s h = Some (Some t, s', h') ∧
    rest ++ [malloc h] = t' :: rest' ∧
    snake_inv s' h' t' rest' false.
Proof.
  intros Hinv.
  destruct (advance_run _ _ _ _ _ Hinv)
    as (hd & hn & h' & Hh & Hhn & Hrun & Vnext & Vprev & Vpos).
  destruct Hinv as [Hnd Ht Hh' Hlen Hnext Hprev Htp].
  pose proof (malloc_fresh h) as Hfresh.
  set (n := malloc h) in *.
  assert (Hn_rest : n ∉ rest).
  { intros Hin. destruct (lseg_allocated _ _ _ _ _ n Hnext) as [x Hx];
      [by right|congruence]. }
  assert (Hhd_n : hd ≠ n) by (intros ->; congruence).
  apply NoDup_cons in Hnd as [Ht_rest Hnd].
  apply lseg_cons in Hnext as (_ & nx & Htn & Hnext).
  rewrite Hh in Hh'. symmetry in Hh'.
  eexists _, h', (default n (head rest)),
    (match rest with [] => [] | _ :: r => r ++ [n] end).
  split; [exact Hrun|]. split; [by destruct rest|].
  destruct rest as [|t' r].
  - (* one segment *)
    simpl in *. simplify_eq/=.
    constructor.
    + apply NoDup_singleton.
    + done.
    + done.
    + done.
    + apply (lseg_cons Node.next). split; [done|]. exists None.
      split; [|done]. rewrite Vnext. by rewrite decide_False, decide_True.
    + done.
    + rewrite Vprev. by rewrite decide_True.
  - (* the segment after the tail becomes the tail *)
    assert (Ht'_n : t' ≠ n) by (intros ->; apply Hn_rest; left).
    assert (Hnx : nx = Some t') by (by apply lseg_cons in Hnext as [-> _]).
    change (last (t' :: r) = Some hd) in Hh'.
    apply last_Some in Hh' as (r0 & Hr0).
    assert (Hn_r0 : n ∉ r0).
    { intros Hin. apply Hn_rest. rewrite Hr0, elem_of_app. by left. }
    assert (Hhd_r0 : hd ∉ r0).
    { rewrite Hr0 in Hnd. apply NoDup_app in Hnd as (_ & Hd & _).
      intros Hin. apply (Hd hd Hin). by apply list_elem_of_singleton. }
    simpl default. simpl app.
    constructor; try change (t' :: r ++ [n]) with ((t' :: r) ++ [n]).
    + apply NoDup_app. split; [done|]. split; [|apply NoDup_singleton].
      intros x Hx. rewrite list_elem_of_singleton. by intros ->.
    + done.
    + simpl Snake.head. by rewrite last_snoc.
    + simpl Snake.length. rewrite Hlen. simpl length. rewrite length_app.
      simpl. lia.
    + simpl Snake.tail. apply lseg_snoc. split.
      2:{ rewrite Vnext. by rewrite decide_False, decide_True. }
      rewrite Hr0 in Hnext |- *. apply lseg_snoc in Hnext as (Hnext & _).
      apply lseg_snoc. split.
      2:{ rewrite Vnext. by rewrite decide_True. }
      rewrite <- Hnx. eapply lseg_ext; [|exact Hnext].
      intros a Ha. rewrite Vnext.
      rewrite decide_False, decide_False; [done| |]; intros ->; done.
    + simpl Snake.head. apply NoDup_cons in Hnd as [Ht'_r Hnd].
      rewrite reverse_snoc. apply lseg_cons. split; [done|].
      exists (Some hd). split.
      { rewrite Vprev. by rewrite decide_False, decide_True. }
      rewrite reverse_cons in Hprev. apply lseg_snoc in Hprev as [Hprev _].
      rewrite Hh in Hprev. eapply lseg_ext; [|exact Hprev].
      intros a Ha. rewrite elem_of_reverse in Ha. rewrite Vprev.
      rewrite decide_False, decide_False; [done| |]; intros ->.
      * apply Hn_rest. by right.
      * done.
    + rewrite Vprev. by rewrite decide_True.
Qed.

(** The segment [advance] returns: still allocated, outside the new chain,
    its position untouched and its [prev] link NULL. *)
Lemma advance_detached s h t rest b r s' h' :
  snake_inv s h t rest b →
  advance s h = Some (r, s', h') →
  r = Some t ∧ (t ∉ rest ++ [malloc h]) ∧
  Node.prev <$> h' !! t = Some None ∧
  Node.pos <$> h' !! t = Node.pos <$> h !! t ∧
  is_Some (h !! t).
Proof.
  intros Hinv Hadv.
  destruct (advance_run _ _ _ _ _ Hinv)
    as (hd & hn & h'' & Hh & Hhn & Hrun & Vnext & Vprev & Vpos).
  rewrite Hrun in Hadv. injection Hadv as <- <- <-.
  destruct Hinv as [Hnd Ht Hh' Hlen Hnext Hprev Htp].
  pose proof (malloc_fresh h) as Hfresh.
  apply NoDup_cons in Hnd as [Ht_rest Hnd].
  assert (Hal : is_Some (h !! t)).
  { eapply lseg_allocated; [exact Hnext|left]. }
  assert (Ht_n : t ≠ malloc h).
  { intros ->. destruct Hal as [x Hx]. congruence. }
  split; [done|]. split.
  { rewrite elem_of_app, list_elem_of_singleton. by intros [?|?]. }
  split; [|split; [|done]].
  - rewrite Vprev, decide_False, decide_False; [done..|].
    destruct rest as [|t' r]; simpl; [done|].
    intros ->. apply Ht_rest. left.
  - by rewrite Vpos, decide_False.
Qed.

(** From the head, the [prev] links lead back through every segment to the
    tail, unless the tail was just re-attached by [grow]. *)
Lemma inv_prev_chain s h t rest :
  snake_inv s h t rest false →
  lseg Node.prev h (Snake.head s) (reverse (t :: rest)) None.
Proof.
  intros [_ _ _ _ _ Hprev Htp]. rewrite reverse_cons.
  apply lseg_snoc. done.
Qed.

Lemma inv_prev_chain_regrown s h t rest :
  snake_inv s h t rest true →
  lseg Node.prev h (Snake.head s) (reverse rest) None.
Proof. by intros [_ _ _ _ _ Hprev _]. Qed.

(** The shape reads the heap only at the snake's own segments. *)
Lemma snake_inv_ext s h h' t rest b :
  (∀ a, a ∈ t :: rest →
        Node.next <$> h' !! a = Node.next <$> h !! a ∧
        Node.prev <$> h' !! a = Node.prev <$> h !! a) →
  snake_inv s h t rest b → snake_inv s h' t rest b.
Proof.
  intros Hext [Hnd Ht Hh Hlen Hnext Hprev Htp].
  constructor; try done.
  - eapply lseg_ext; [|exact Hnext]. intros a Ha. by apply Hext.
  - eapply lseg_ext; [|exact Hprev]. intros a Ha. apply Hext.
    right. by rewrite elem_of_reverse in Ha.
  - destruct (Hext t) as [_ ->]; [left|done].
Qed.

Lemma newSnake_inv center r h :
  snake_inv (newSnake center r h).1 (newSnake center r h).2 (malloc h) [] false.
Proof.
  unfold newSnake, newNode. simpl.
  constructor; simpl; try done.
  - apply NoDup_singleton.
  - split; [done|]. eexists. by rewrite lookup_insert_eq.
  - by rewrite lookup_insert_eq.
Qed.

Lemma changeDirection_inv s h t rest b d :
  snake_inv s h t rest b → snake_inv (changeDirection s d) h t rest b.
Proof.
  intros Hinv. unfold changeDirection.
  destruct (_ || _); [done|]. by destruct Hinv.
Qed.

(** Freeing a node outside the chain leaves the shape alone. *)
Lemma destroyNode_inv s h t rest b a :
  snake_inv s h t rest b → a ∉ t :: rest → is_Some (h !! a) →
  ∃ h', destroyNode (Some a) h = Some h' ∧ h' = delete a h ∧
        snake_inv s h' t rest b.
Proof.
  intros Hinv Ha [x Hx]. exists (delete a h).
  unfold destroyNode, free. rewrite Hx. split; [done|]. split; [done|].
  eapply snake_inv_ext; [|exact Hinv].
  intros c Hc. rewrite lookup_delete_ne; [done|]. by intros ->.
Qed.

(** [grow] on the segment the last [advance] returned: the chain of [next]
    links takes the tail back, the [prev] link that led to it stays NULL. *)
Lemma grow_inv s h t' rest' t :
  snake_inv s h t' rest' false → t ∉ t' :: rest' →
  Node.prev <$> h !! t = Some None →
  ∃ s' h', grow s (Some t) h = Some (s', h') ∧
           snake_inv s' h' t (t' :: rest') true.
Proof.
  intros Hinv Ht Htprev.
  destruct (h !! t) as [tn|] eqn:Htn; [|done].
  injection Htprev as Htprev.
  unfold grow. simpl. rewrite Htn. simpl. eexists _, _. split; [done|].
  assert (Hext : ∀ a, a ∈ t' :: rest' →
    ∀ link : Node.t → option loc,
      link <$> <[t:=Node.set_next (Snake.tail s) tn]> h !! a
      = link <$> h !! a).
  { intros a Ha link. rewrite lookup_insert_ne; [done|]. by intros ->. }
  destruct Hinv as [Hnd Htl Hh Hlen Hnext Hprev Htp].
  constructor.
  - by apply NoDup_cons.
  - done.
  - done.
  - simpl. rewrite Hlen. simpl. lia.
  - apply lseg_cons. split; [done|]. exists (Some t'). split.
    + by rewrite lookup_insert_eq, Htl.
    + eapply lseg_ext; [|exact Hnext]. intros a Ha. by apply Hext.
  - simpl Snake.head. rewrite reverse_cons. apply lseg_snoc. split.
    + eapply lseg_ext; [|exact Hprev]. intros a Ha. apply Hext.
      right. by rewrite elem_of_reverse in Ha.
    + rewrite Hext; [done|left].
  - rewrite lookup_insert_eq. simpl. by rewrite Htprev.
Qed.

Lemma settled_inv s h : settled s h → ∃ t rest b, snake_inv s h t rest b.
Proof.
  induction 1 as [center r h|s h d _ (t & rest & b & IH)
                 |s h oldTail s' h' h'' _ (t & rest & b & IH) Hadv Hfree
                 |s h oldTail s' h' s'' h'' _ (t & rest & b & IH) Hadv Hgrow].
  - eexists _, _, _. apply newSnake_inv.
  - eexists _, _, _. by apply changeDirection_inv.
  - destruct (advance_inv _ _ _ _ _ IH) as (s1 & h1 & t' & rest' & Hrun & Hl & Hinv).
    destruct (advance_detached _ _ _ _ _ _ _ _ IH Hadv)
      as (-> & Hnin & _ & Hpos & Hal).
    rewrite Hrun in Hadv. injection Hadv as <- <-.
    rewrite Hl in Hnin.
    assert (Hal' : is_Some (h1 !! t)).
    { apply (fmap_is_Some Node.pos). rewrite Hpos. by apply fmap_is_Some. }
    destruct (destroyNode_inv _ _ _ _ _ _ Hinv Hnin Hal')
      as (h2 & Hd & _ & Hinv2).
    rewrite Hd in Hfree. injection Hfree as <-. eauto.
  - destruct (advance_inv _ _ _ _ _ IH) as (s1 & h1 & t' & rest' & Hrun & Hl & Hinv).
    destruct (advance_detached _ _ _ _ _ _ _ _ IH Hadv)
      as (-> & Hnin & Hprev & _ & _).
    rewrite Hrun in Hadv. injection Hadv as <- <-.
    rewrite Hl in Hnin.
    destruct (grow_inv _ _ _ _ _ Hinv Hnin Hprev) as (s2 & h2 & Hg & Hinv2).
    rewrite Hg in Hgrow. injection Hgrow as <- <-. eauto.
Qed.

(** In every such state the [next] links lead from the tail through exactly
    [length] distinct segments, the last of them the head. *)
Lemma settled_next_chain s h :
  settled s h →
  ∃ l, lseg Node.next h (Snake.tail s) l None ∧ NoDup l ∧
       last l = Snake.head s ∧ Z.of_nat (length l) = Snake.length s.
Proof.
  intros (t & rest & b & [Hnd Ht Hh Hlen Hnext _ _])%settled_inv.
  exists (t :: rest). by rewrite Ht, Hh, Hlen.
Qed.

(** ** advance *)

(** C1. For every snake of the shape the operations keep (tail [t], then
    [rest] up to the head) and every current direction, [advance] returns
    the pre-call tail and leaves that segment's position as it was; it
    allocates exactly one node, the new head, whose position is the pre-call
    head's shifted one cell in the current direction (NORTH: y-1; SOUTH: y+1;
    EAST: x+1; WEST: x-1); length and direction are unchanged; and the
    returned segment is reached neither from the new head along [prev] nor
    from the new tail along [next]: both chains hold the old segments but
    the tail, and the new head. *)
Theorem advance_detaches_tail_pushes_head s h t rest b :
  snake_inv s h t rest b →
  ∃ hd hn tn n nn s' h',
    advance s h = Some (Some t, s', h') ∧
    Snake.tail s = Some t ∧ h !! t = Some tn ∧
    Snake.head s = Some hd ∧ h !! hd = Some hn ∧
    Node.pos <$> h' !! t = Some (Node.pos tn) ∧
    h !! n = None ∧ dom h' = {[n]} ∪ dom h ∧
    Snake.head s' = Some n ∧ h' !! n = Some nn ∧
    Node.pos nn =
      match Snake.direction s with
      | NORTH => Point.mk (Point.x (Node.pos hn)) (Point.y (Node.pos hn) - 1)
      | SOUTH => Point.mk (Point.x (Node.pos hn)) (Point.y (Node.pos hn) + 1)
      | EAST => Point.mk (Point.x (Node.pos hn) + 1) (Point.y (Node.pos hn))
      | WEST => Point.mk (Point.x (Node.pos hn) - 1) (Point.y (Node.pos hn))
      end ∧
    (∀ a, a ≠ n → Node.pos <$> h' !! a = Node.pos <$> h !! a) ∧
    Snake.length s' = Snake.length s ∧
    Snake.direction s' = Snake.direction s ∧
    (∀ l, lseg Node.prev h' (Snake.head s') l None → t ∉ l) ∧
    (∀ l, lseg Node.next h' (Snake.tail s') l None → t ∉ l) ∧
    lseg Node.next h' (Snake.tail s') (rest ++ [n]) None ∧
    lseg Node.prev h' (Snake.head s') (reverse (rest ++ [n])) None.
Proof.
  intros Hinv.
  destruct (advance_run _ _ _ _ _ Hinv)
    as (hd & hn & h' & Hh & Hhn & Hrun & Vnext & Vprev & Vpos).
  destruct (advance_inv _ _ _ _ _ Hinv)
    as (s1 & h1 & t' & rest' & Hrun' & Hl & Hinv').
  destruct (advance_detached _ _ _ _ _ _ _ _ Hinv Hrun)
    as (_ & Hnin & _ & Hpos & [tn Htn]).
  rewrite Hrun in Hrun'. injection Hrun' as <- <-.
  rewrite Hl in Hnin.
  pose proof (malloc_fresh h) as Hfresh.
  assert (Hnn : ∃ nn, h' !! malloc h = Some nn ∧
                      Node.pos nn = step (Snake.direction s) (Node.pos hn)).
  { specialize (Vpos (malloc h)). rewrite decide_True in Vpos by done.
    destruct (h' !! malloc h) as [nn|]; [|done]. injection Vpos as Vpos.
    eauto. }
  destruct Hnn as (nn & Hnn & Hnnpos).
  exists hd, hn, tn, (malloc h), nn. eexists _, h'.
  split; [exact Hrun|]. split; [by destruct Hinv|].
  repeat (split; [done|]).
  split; [by rewrite Hpos, Htn|].
  split; [done|]. split.
  { apply set_eq. intros a.
    rewrite elem_of_union, elem_of_singleton, !elem_of_dom.
    rewrite <- (fmap_is_Some Node.pos (h' !! a)), Vpos.
    case_decide as Ha.
    - split; [by left|by eauto].
    - rewrite fmap_is_Some. split; [by right|by intros [?|?]]. }
  split; [done|]. split; [done|].
  split; [rewrite Hnnpos; by destruct (Snake.direction s)|].
  split; [intros a Ha; by rewrite Vpos, decide_False|].
  split; [done|]. split; [done|].
  pose proof (inv_prev_chain _ _ _ _ Hinv') as Hprev'.
  destruct Hinv' as [_ Htl _ _ Hnext' _ _]. rewrite <- Htl in Hnext'.
  rewrite <- Hl in Hnin, Hnext', Hprev'.
  split; [|split; [|done]].
  - intros l Hlseg. rewrite (lseg_det _ _ _ _ _ Hlseg Hprev').
    by rewrite elem_of_reverse.
  - intros l Hlseg. by rewrite (lseg_det _ _ _ _ _ Hlseg Hnext').
Qed.

Example grown0_runs :
  grown0 =
  Some (Snake.mk (Some 2%positive) (Some 1%positive) EAST 2,
        {[ 1%positive := Node.mk (Point.mk 5 5) None (Some 2%positive);
           2%positive := Node.mk (Point.mk 6 5) None None ]}).
Proof. vm_compute. reflexivity. Qed.

Lemma advance_detaches_tail_pushes_head_witness :
  ∃ s h,
    grown0 = Some (s, h) ∧
    snake_inv s h 1%positive [2%positive] true ∧
    ∃ s' h', advance s h = Some (Some 1%positive, s', h') ∧
             Snake.length s' = Snake.length s.
Proof.
  eexists _, _. split; [exact grown0_runs|].
  match goal with |- ?P ∧ _ => assert (Hinv : P) end.
  { constructor.
    - apply NoDup_cons. split; [|apply NoDup_singleton].
      by rewrite list_elem_of_singleton.
    - reflexivity.
    - reflexivity.
    - reflexivity.
    - repeat (split; [reflexivity|]; eexists; split; [vm_compute; reflexivity|]).
      reflexivity.
    - repeat (split; [reflexivity|]; eexists; split; [vm_compute; reflexivity|]).
      reflexivity.
    - vm_compute. reflexivity. }
  split; [exact Hinv|].
  destruct (advance_detaches_tail_pushes_head _ _ _ _ _ Hinv)
    as (hd & hn & tn & n & nn & s' & h' & Hrun & _ & _ & _ & _ & _ & _ & _
        & _ & _ & _ & _ & Hlen & _).
  exists s', h'. split; [exact Hrun|exact Hlen].
Defined.

(** ** changeDirection *)

Lemma opposite_code (d c : Direction) :
  (Direction_code d =? Z.rem (Direction_code c + 2) (Direction_code WEST + 1))
  = bool_decide (d = opposite c).
Proof. by destruct d, c. Qed.

(** C4. For every snake and requested direction [d], [changeDirection]
    leaves the heading as it is when [d] is the current heading, or when [d]
    is its exact opposite and the length is above 1, and sets the heading to
    [d] otherwise; head, tail and length are unchanged (the function reads
    and writes the Snake record only, so no node is touched); and with
    length 1 the heading is [d] afterwards. *)
Theorem changeDirection_heading (s : Snake.t) (d : Direction) :
  Snake.direction (changeDirection s d) =
    (if decide (d = Snake.direction s ∨
                (1 < Snake.length s ∧ d = opposite (Snake.direction s)))
     then Snake.direction s else d) ∧
  Snake.head (changeDirection s d) = Snake.head s ∧
  Snake.tail (changeDirection s d) = Snake.tail s ∧
  Snake.length (changeDirection s d) = Snake.length s ∧
  (Snake.length s = 1 → Snake.direction (changeDirection s d) = d).
Proof.
  unfold changeDirection. rewrite opposite_code.
  destruct (bool_decide_reflect (d = Snake.direction s)) as [Hd|Hd];
    destruct (Z.ltb_spec 1 (Snake.length s)) as [Hl|Hl];
    destruct (bool_decide_reflect (d = opposite (Snake.direction s))) as [Ho|Ho];
    simpl; case_decide as Hc; repeat split; try done; try lia;
    try (exfalso; apply Hc; auto; fail);
    try (destruct Hc as [?|[? ?]]; done || lia).
Qed.

Lemma changeDirection_heading_witness :
  Snake.length (Snake.mk (Some 1%positive) (Some 1%positive) EAST 1) = 1 ∧
  Snake.direction
    (changeDirection (Snake.mk (Some 1%positive) (Some 1%positive) EAST 1) WEST)
  = WEST.
Proof.
  split; [reflexivity|].
  apply (changeDirection_heading
           (Snake.mk (Some 1%positive) (Some 1%positive) EAST 1) WEST).
  reflexivity.
Defined.

(** ** grow and the prev chain *)

(** After [advance] and [grow], the [prev] links from the head stop one
    segment short of the tail. *)
Lemma grow_prev_chain_short s h oldTail s' h' s'' h'' :
  settled s h →
  advance s h = Some (oldTail, s', h') →
  grow s' oldTail h' = Some (s'', h'') →
  ∃ l, lseg Node.prev h'' (Snake.head s'') l None ∧
       Z.of_nat (length l) = Snake.length s'' - 1 ∧
       ¬ prev_chain_complete s'' h''.
Proof.
  intros (t & rest & b & IH)%settled_inv Hadv Hgrow.
  destruct (advance_inv _ _ _ _ _ IH)
    as (s1 & h1 & t' & rest' & Hrun & Hl & Hinv).
  destruct (advance_detached _ _ _ _ _ _ _ _ IH Hadv)
    as (-> & Hnin & Hprev & _ & _).
  rewrite Hrun in Hadv. injection Hadv as <- <-. rewrite Hl in Hnin.
  destruct (grow_inv _ _ _ _ _ Hinv Hnin Hprev) as (s2 & h2 & Hg & Hinv2).
  rewrite Hg in Hgrow. injection Hgrow as <- <-.
  pose proof (inv_prev_chain_regrown _ _ _ _ Hinv2) as Hchain.
  destruct Hinv2 as [_ _ _ Hlen _ _ _].
  exists (reverse (t' :: rest')). split; [done|].
  assert (Hshort : Z.of_nat (length (reverse (t' :: rest'))) = Snake.length s2 - 1).
  { rewrite length_reverse, Hlen. simpl length. lia. }
  split; [done|].
  intros (l & Hl' & _ & _ & Hlen').
  rewrite (lseg_det _ _ _ _ _ Hl' Hchain) in Hlen'. lia.
Qed.

(** C3, run on the code.  The first snake, after one frame on which it
    eats ([advance], then [grow]): a settled state of length 2 whose [prev]
    chain from the head holds the head alone, so the chain neither reaches
    the tail nor visits [length] segments.  And the round [round2] after the
    frames of [keys2], the last of which eats: the snake has length 5, the
    [prev] chain from its head visits four segments and stops short of the
    tail, the head lies on the tail's cell (12, 7), and [selfCollision] has
    reported nothing. *)
Theorem grown_snake_prev_chain_incomplete :
  (∃ s h,
     grown0 = Some (s, h) ∧ settled s h ∧
     Snake.length s = 2 ∧ Snake.tail s = Some 1%positive ∧
     walk Node.prev 2 h (Snake.head s) = Some [2%positive] ∧
     walk Node.next 2 h (Snake.tail s) = Some [1%positive; 2%positive] ∧
     ¬ prev_chain_complete s h) ∧
  (∃ g ev,
     (g ← round2; run (80, 24) keys2 g.1) = Returns (g, ev) ∧
     Game.quit g = false ∧
     Snake.length (Game.snake g) = 5 ∧
     Snake.tail (Game.snake g) = Some 4%positive ∧
     walk Node.prev 5 (Game.heap g) (Snake.head (Game.snake g))
       = Some [8; 7; 6; 5]%positive ∧
     walk Node.next 5 (Game.heap g) (Snake.tail (Game.snake g))
       = Some [4; 5; 6; 7; 8]%positive ∧
     pos_at (Game.heap g) 8%positive = Point.mk 12 7 ∧
     pos_at (Game.heap g) 4%positive = Point.mk 12 7 ∧
     selfCollision 6 (Game.snake g) (Game.heap g) = Some None).
Proof.
  split.
  - eexists _, _. split; [exact grown0_runs|].
    assert (Hs : settled (Snake.mk (Some 2%positive) (Some 1%positive) EAST 2)
                   {[ 1%positive := Node.mk (Point.mk 5 5) None (Some 2%positive);
                      2%positive := Node.mk (Point.mk 6 5) None None ]}).
    { eapply (settled_grow _ _ (Some 1%positive)
                (Snake.mk (Some 2%positive) (Some 2%positive) EAST 1)
                {[ 1%positive := Node.mk (Point.mk 5 5) None (Some 2%positive);
                   2%positive := Node.mk (Point.mk 6 5) None None ]}).
      - apply (settled_newSnake center0 1 ∅).
      - vm_compute. reflexivity.
      - vm_compute. reflexivity. }
    split; [exact Hs|]. split; [reflexivity|]. split; [reflexivity|].
    split; [vm_compute; reflexivity|]. split; [vm_compute; reflexivity|].
    intros (l & Hl & _ & _ & Hlen).
    assert (Hw : lseg Node.prev
                   {[ 1%positive := Node.mk (Point.mk 5 5) None (Some 2%positive);
                      2%positive := Node.mk (Point.mk 6 5) None None ]}
                   (Some 2%positive) [2%positive] None).
    { apply (walk_lseg _ 2). vm_compute. reflexivity. }
    simpl in Hl, Hlen. rewrite (lseg_det _ _ _ _ _ Hl Hw) in Hlen. done.
  - eexists _, _. split; [vm_compute; reflexivity|].
    repeat split; vm_compute; reflexivity.
Qed.

(** ** destroySnake *)

(** The loop of [destroySnake] starts at the head and follows [next], which
    is NULL at the head: it frees the head and nothing else. *)
Lemma destroySnake_frees_head_only s h t rest b fuel :
  snake_inv s h t rest b →
  ∃ hd, Snake.head s = Some hd ∧
        destroySnake (S fuel) (Some s) h = Some (delete hd h) ∧
        ∀ a, a ∈ t :: rest → a ≠ hd → is_Some (delete hd h !! a).
Proof.
  intros [Hnd Ht Hh Hlen Hnext Hprev Htp].
  destruct (last (t :: rest)) as [hd|] eqn:Hlast;
    [|by apply last_None in Hlast].
  exists hd. split; [done|].
  pose proof Hlast as Hl. apply last_Some in Hl as (l0 & Hl0).
  pose proof Hnext as Hnext'. rewrite Hl0 in Hnext'.
  apply lseg_snoc in Hnext' as [_ Hhdnext].
  destruct (h !! hd) as [hn|] eqn:Hhn; [|done]. injection Hhdnext as Hhdnext.
  split.
  - unfold destroySnake. rewrite Hh. simpl. rewrite Hhn. simpl.
    unfold free. rewrite Hhn. simpl. rewrite Hhdnext. by destruct fuel.
  - intros a Ha Hne. rewrite lookup_delete_ne by done.
    eapply lseg_allocated; [exact Hnext|done].
Qed.

(** C8, run on the code.  The snake of two segments (tail 1, head 2) that
    one eating frame leaves: [destroySnake] returns with the tail node
    still allocated. *)
Theorem destroySnake_leaks_tail :
  ∃ s h h',
    grown0 = Some (s, h) ∧
    walk Node.next 2 h (Snake.tail s) = Some [1%positive; 2%positive] ∧
    destroySnake 2 (Some s) h = Some h' ∧
    h' !! 2%positive = None ∧
    h' !! 1%positive = Some (Node.mk (Point.mk 5 5) None (Some 2%positive)).
Proof.
  eexists _, _, _. split; [exact grown0_runs|].
  split; [vm_compute; reflexivity|].
  split; [vm_compute; reflexivity|].
  split; vm_compute; reflexivity.
Qed.

(** ** selfCollision *)

Lemma point_eqb (p q : Point.t) :
  bool_decide (Point.x p = Point.x q) && bool_decide (Point.y p = Point.y q)
  = bool_decide (p = q).
Proof.
  destruct p as [px py], q as [qx qy]. simpl.
  repeat case_bool_decide; simplify_eq/=; done.
Qed.

Lemma selfCollision_inner_spec fuel h p it2 l :
  lseg Node.prev h it2 l None → (length l ≤ fuel)%nat →
  selfCollision_inner fuel h p it2 = Some (bool_decide (p ∈ positions h l)).
Proof.
  revert it2 fuel. induction l as [|a l IH]; intros it2 fuel; simpl.
  - intros -> _. by destruct fuel.
  - intros (-> & n & Hn & H) Hf. destruct fuel as [|fuel]; [lia|].
    assert (Hpa : pos_at h a = Node.pos n) by (unfold pos_at; by rewrite Hn).
    simpl. rewrite Hn. simpl. rewrite point_eqb, Hpa.
    destruct (bool_decide_reflect (p = Node.pos n)) as [Hp|Hp].
    + by rewrite bool_decide_eq_true_2 by (rewrite Hp; left).
    + rewrite (IH _ fuel H) by lia. f_equal. apply bool_decide_ext.
      rewrite elem_of_cons. split; [by right|by intros [?|?]].
Qed.

Lemma selfCollision_outer_spec fuel h it1 l :
  lseg Node.prev h it1 l None → (length l ≤ fuel)%nat →
  selfCollision_outer fuel h it1 = Some (first_repeated (positions h l)).
Proof.
  revert it1 fuel. induction l as [|a l IH]; intros it1 fuel; simpl.
  - intros -> _. by destruct fuel.
  - intros (-> & n & Hn & H) Hf. destruct fuel as [|fuel]; [lia|].
    assert (Hpa : pos_at h a = Node.pos n) by (unfold pos_at; by rewrite Hn).
    simpl. rewrite Hn. simpl.
    rewrite (selfCollision_inner_spec fuel h _ _ l H) by lia. simpl.
    rewrite Hpa.
    destruct (bool_decide_reflect (Node.pos n ∈ positions h l)); [done|].
    apply IH; [done|lia].
Qed.

Lemma first_repeated_None ps : first_repeated ps = None ↔ NoDup ps.
Proof.
  induction ps as [|p ps IH]; simpl.
  - split; [intros _; apply NoDup_nil_2|done].
  - rewrite NoDup_cons. case_bool_decide; [|tauto].
    split; [done|]. by intros [? _].
Qed.

Lemma first_repeated_Some ps p :
  first_repeated ps = Some p ↔
  ∃ l1 l2, ps = l1 ++ p :: l2 ∧ p ∈ l2 ∧ NoDup l1 ∧ ∀ q, q ∈ l1 → q ∉ p :: l2.
Proof.
  revert p. induction ps as [|p0 ps IH]; intros p; simpl.
  - split; [done|]. intros (l1 & l2 & H & _). by destruct l1.
  - case_bool_decide as Hin.
    + split.
      * intros [= <-]. exists [], ps. repeat split; try done.
        -- apply NoDup_nil_2.
        -- intros q Hq. by apply elem_of_nil in Hq.
      * intros (l1 & l2 & Hps & Hp & Hnd & Hl1).
        destruct l1 as [|q l1]; simpl in Hps; [by injection Hps as ->|].
        injection Hps as -> ->. exfalso.
        apply NoDup_cons in Hnd as [Hq _].
        apply elem_of_app in Hin as [?|Hin]; [done|].
        by apply (Hl1 q); [left|].
    + rewrite IH. split.
      * intros (l1 & l2 & -> & Hp & Hnd & Hl1).
        exists (p0 :: l1), l2. split; [done|]. split; [done|]. split.
        -- apply NoDup_cons. split; [|done]. intros ?. apply Hin.
           apply elem_of_app. by left.
        -- intros q [->|Hq]%elem_of_cons; [|by apply Hl1].
           intros ?. apply Hin. apply elem_of_app. by right.
      * intros (l1 & l2 & Hps & Hp & Hnd & Hl1).
        destruct l1 as [|q l1]; simpl in Hps.
        { injection Hps as -> ->. done. }
        injection Hps as -> ->.
        apply NoDup_cons in Hnd as [_ Hnd].
        exists l1, l2. repeat split; try done.
        intros q' Hq'. apply Hl1. by right.
Qed.


(** Along the [prev] chain [l] from the head, [selfCollision] compares
    every segment with every segment closer to the tail, its immediate
    predecessor included; it returns the position of the first segment, head
    first, that coincides with a later one, and returns none exactly when
    all positions along the chain are distinct. *)
Lemma selfCollision_first_coinciding s h l fuel :
  lseg Node.prev h (Snake.head s) l None → (length l ≤ fuel)%nat →
  ∃ r, selfCollision fuel s h = Some r ∧
       match r with
       | None => NoDup (positions h l)
       | Some p =>
           ∃ l1 l2, positions h l = l1 ++ p :: l2 ∧ p ∈ l2 ∧
                    NoDup l1 ∧ ∀ q, q ∈ l1 → q ∉ p :: l2
       end.
Proof.
  intros Hl Hf. exists (first_repeated (positions h l)).
  split; [by apply selfCollision_outer_spec|].
  destruct (first_repeated (positions h l)) as [p|] eqn:Hr.
  - by apply first_repeated_Some.
  - by apply first_repeated_None.
Qed.

(** C2, run on the code.  After the frames of [keys2] in the round
    [round2] the snake has five segments, 4, 5, 6, 7 and 8 from the tail
    along [next]; the head 8 and the tail 4 lie on the cell (12, 7) and are
    not neighbours in the chain.  The scan the claim describes, over the
    five segments from the head, returns that cell; [selfCollision], which
    follows [prev] and never reaches the re-attached tail, returns none, and
    the frame that brought the head there went on without a dialog. *)
Theorem selfCollision_misses_reattached_tail :
  ∃ g ev,
    (g ← round2; run (80, 24) keys2 g.1) = Returns (g, ev) ∧
    Game.quit g = false ∧
    Snake.length (Game.snake g) = 5 ∧
    Snake.head (Game.snake g) = Some 8%positive ∧
    Snake.tail (Game.snake g) = Some 4%positive ∧
    walk Node.next 5 (Game.heap g) (Snake.tail (Game.snake g))
      = Some [4; 5; 6; 7; 8]%positive ∧
    positions (Game.heap g) [8; 7; 6; 5; 4]%positive
      = [Point.mk 12 7; Point.mk 11 7; Point.mk 11 8; Point.mk 12 8;
         Point.mk 12 7] ∧
    spec_selfCollision (positions (Game.heap g) [8; 7; 6; 5; 4]%positive)
      = Some (Point.mk 12 7) ∧
    selfCollision 6 (Game.snake g) (Game.heap g) = Some None ∧
    (∀ score, EvDialog score ∉ ev).
Proof.
  eexists _, _. split; [vm_compute; reflexivity|].
  repeat split; try (vm_compute; reflexivity).
  intros score Hin.
  repeat (apply elem_of_cons in Hin as [Hin|Hin]; [discriminate Hin|]).
  by apply elem_of_nil in Hin.
Qed.

(** ** spawnOrb *)

Lemma candidate_in_field self r1 r2 :
  0 ≤ Screen.mapWidth self → 0 ≤ Screen.mapHeight self →
  in_field self (candidate self r1 r2).
Proof.
  intros Hw Hh. unfold in_field, candidate. simpl.
  pose proof (Z.rem_bound_pos (Z.of_N r1) (Screen.mapWidth self + 1)).
  pose proof (Z.rem_bound_pos (Z.of_N r2) (Screen.mapHeight self + 1)).
  lia.
Qed.

(** Every cell of the field is the candidate of some pair of results. *)
Lemma candidate_onto self p :
  in_field self p →
  candidate self (Z.to_N (Point.x p)) (Z.to_N (Point.y p)) = p.
Proof.
  intros [Hx Hy]. destruct p as [x y]. unfold candidate. simpl in *.
  rewrite !Z2N.id by lia. rewrite !Z.rem_small by lia. done.
Qed.

Lemma occupied_not_free self p : occupied self p → ¬ free_cell self p.
Proof. unfold occupied, free_cell. intros H (c & Hc & Hne). congruence. Qed.

(** One pass of the loop. *)
Lemma spawnOrb_pass self r1 r2 tape :
  0 ≤ Screen.mapWidth self → 0 ≤ Screen.mapHeight self →
  spawnOrb (r1 :: r2 :: tape) self =
    cell ← defined (grid_get (Screen.grid self)
                      (Point.y (candidate self r1 r2))
                      (Point.x (candidate self r1 r2)));
    if cell =? 1 then spawnOrb tape (Screen.set_orb (candidate self r1 r2) self)
    else Returns (Screen.set_orb (candidate self r1 r2) self, tape).
Proof.
  intros Hw Hh. simpl.
  destruct (Z.eqb_spec (Screen.mapWidth self + 1) 0); [lia|].
  destruct (Z.eqb_spec (Screen.mapHeight self + 1) 0); [lia|].
  done.
Qed.

(** The loop reads the grid and the extents only, never the orb. *)
Lemma spawnOrb_set_orb tape self p :
  spawnOrb tape (Screen.set_orb p self) = spawnOrb tape self.
Proof.
  revert self p.
  induction tape as [tape IH] using (induction_ltof1 _ (@length N)).
  intros self p. destruct tape as [|r1 [|r2 tape]]; [done..|].
  simpl.
  destruct (_ || _); [done|].
  destruct (grid_get _ _ _) as [c|]; simpl; [|done].
  destruct (c =? 1); [|done].
  rewrite !(IH tape); [done|..]; unfold ltof; simpl; lia.
Qed.

(** When the loop leaves, the tape splits into the passes that sampled an
    occupied cell, and the pass whose sample was free and is now the orb. *)
Lemma spawnOrb_returns self tape self' tape' :
  0 ≤ Screen.mapWidth self → 0 ≤ Screen.mapHeight self →
  spawnOrb tape self = Returns (self', tape') →
  ∃ rejected r1 r2,
    tape = samples rejected ++ r1 :: r2 :: tape' ∧
    self' = Screen.set_orb (candidate self r1 r2) self ∧
    free_cell self (candidate self r1 r2) ∧
    Forall (λ rr, occupied self (candidate self rr.1 rr.2)) rejected.
Proof.
  intros Hw Hh. revert self'.
  induction tape as [tape IH] using (induction_ltof1 _ (@length N)).
  intros self'. destruct tape as [|r1 [|r2 tape]]; [done..|].
  rewrite spawnOrb_pass by done.
  destruct (grid_get _ _ _) as [c|] eqn:Hc; simpl; [|done].
  destruct (Z.eqb_spec c 1) as [->|Hne].
  - rewrite spawnOrb_set_orb. intros Hrun.
    apply IH in Hrun as (rejected & a & b & -> & -> & Hfree & Hrej);
      [|unfold ltof; simpl; lia].
    exists ((r1, r2) :: rejected), a, b. split; [done|]. split; [done|].
    split; [done|]. by constructor.
  - intros [= <- <-]. exists [], r1, r2. split; [done|]. split; [done|].
    split; [by exists c|constructor].
Qed.

(** The loop leaves at the first pass whose sample is free. *)
Lemma spawnOrb_progress self rejected r1 r2 tape' :
  0 ≤ Screen.mapWidth self → 0 ≤ Screen.mapHeight self →
  Forall (λ rr, occupied self (candidate self rr.1 rr.2)) rejected →
  free_cell self (candidate self r1 r2) →
  spawnOrb (samples rejected ++ r1 :: r2 :: tape') self
  = Returns (Screen.set_orb (candidate self r1 r2) self, tape').
Proof.
  intros Hw Hh Hrej (c & Hc & Hne).
  induction Hrej as [|[a b] rejected Hocc _ IH].
  - simpl app. rewrite spawnOrb_pass by done. rewrite Hc. simpl.
    by destruct (Z.eqb_spec c 1).
  - change (samples ((a, b) :: rejected) ++ r1 :: r2 :: tape')
      with (a :: b :: (samples rejected ++ r1 :: r2 :: tape')).
    rewrite spawnOrb_pass by done. unfold occupied in Hocc.
    cbn [fst snd] in Hocc. rewrite Hocc. simpl. by rewrite spawnOrb_set_orb.
Qed.

(** C6. On a field of non-negative extents: whenever [spawnOrb] returns,
    the orb is the sample of the last pass, a cell of
    [0..mapWidth] x [0..mapHeight] whose grid entry was not 1 at call time,
    every earlier pass sampled an occupied cell, and the grid is as it was;
    it does return at the first pass whose sample is free; and when exactly
    one cell [p] of the field is free, it returns with the orb on [p], on
    every tape of [rand()] results on which some pass samples [p] (such
    tapes exist: every cell is the sample of some results). *)
Theorem spawnOrb_returns_first_free_sample self :
  0 ≤ Screen.mapWidth self → 0 ≤ Screen.mapHeight self →
  (∀ tape self' tape',
     spawnOrb tape self = Returns (self', tape') →
     ∃ rejected r1 r2,
       tape = samples rejected ++ r1 :: r2 :: tape' ∧
       Screen.orb self' = Some (candidate self r1 r2) ∧
       in_field self (candidate self r1 r2) ∧
       free_cell self (candidate self r1 r2) ∧
       ¬ occupied self (candidate self r1 r2) ∧
       Forall (λ rr, occupied self (candidate self rr.1 rr.2)) rejected ∧
       Screen.grid self' = Screen.grid self) ∧
  (∀ rejected r1 r2 tape',
     Forall (λ rr, occupied self (candidate self rr.1 rr.2)) rejected →
     free_cell self (candidate self r1 r2) →
     spawnOrb (samples rejected ++ r1 :: r2 :: tape') self
     = Returns (Screen.set_orb (candidate self r1 r2) self, tape')) ∧
  (∀ p,
     in_field self p → free_cell self p →
     (∀ q, in_field self q → q ≠ p → occupied self q) →
     (∀ tape self' tape',
        spawnOrb tape self = Returns (self', tape') →
        Screen.orb self' = Some p) ∧
     (∀ passes r1 r2 tape',
        candidate self r1 r2 = p →
        ∃ self' tape'',
          spawnOrb (samples passes ++ r1 :: r2 :: tape') self
          = Returns (self', tape'') ∧
          Screen.orb self' = Some p) ∧
     candidate self (Z.to_N (Point.x p)) (Z.to_N (Point.y p)) = p).
Proof.
  intros Hw Hh. split; [|split].
  - intros tape self' tape' Hrun.
    apply spawnOrb_returns in Hrun
      as (rejected & r1 & r2 & -> & -> & Hfree & Hrej); [|done..].
    exists rejected, r1, r2. split; [done|]. split; [done|].
    split; [by apply candidate_in_field|]. split; [done|].
    split; [|done]. intros Hocc. by apply (occupied_not_free _ _ Hocc).
  - intros rejected r1 r2 tape' Hrej Hfree. by apply spawnOrb_progress.
  - intros p Hin Hfree Hothers. split; [|split].
    + intros tape self' tape' Hrun.
      apply spawnOrb_returns in Hrun
        as (rejected & r1 & r2 & -> & -> & Hf & Hrej); [|done..].
      simpl. f_equal.
      destruct (decide (candidate self r1 r2 = p)) as [|Hne]; [done|].
      exfalso. eapply occupied_not_free; [|exact Hf].
      apply Hothers; [by apply candidate_in_field|done].
    + intros passes r1 r2 tape' Hp.
      induction passes as [|[a b] passes IH].
      * eexists _, _. split.
        -- apply (spawnOrb_progress self []); [done..|constructor|].
           by rewrite Hp.
        -- simpl. by rewrite Hp.
      * change (samples ((a, b) :: passes) ++ r1 :: r2 :: tape')
          with (a :: b :: (samples passes ++ r1 :: r2 :: tape')).
        destruct (decide (candidate self a b = p)) as [Hab|Hab].
        -- eexists _, _. split.
           ++ apply (spawnOrb_progress self [] a b); [done..|constructor|].
              by rewrite Hab.
           ++ simpl. by rewrite Hab.
        -- destruct IH as (self' & tape'' & Hrun & Horb).
           exists self', tape''. split; [|done].
           rewrite spawnOrb_pass by done.
           assert (Hocc : occupied self (candidate self a b)).
           { apply Hothers; [by apply candidate_in_field|done]. }
           unfold occupied in Hocc. rewrite Hocc. simpl.
           by rewrite spawnOrb_set_orb.
    + by apply candidate_onto.
Qed.

Lemma spawnOrb_returns_first_free_sample_witness :
  0 ≤ Screen.mapWidth one_free_screen ∧
  0 ≤ Screen.mapHeight one_free_screen ∧
  spawnOrb [0; 0; 1; 0; 5; 5]%N one_free_screen
  = Returns (Screen.set_orb (Point.mk 1 0) one_free_screen, [5; 5]%N).
Proof.
  assert (Hw : 0 ≤ Screen.mapWidth one_free_screen) by (simpl; lia).
  assert (Hh : 0 ≤ Screen.mapHeight one_free_screen) by (simpl; lia).
  split; [exact Hw|]. split; [exact Hh|].
  destruct (spawnOrb_returns_first_free_sample one_free_screen Hw Hh)
    as (_ & Hprogress & _).
  apply (Hprogress [(0, 0)] 1 0 [5; 5])%N.
  - constructor; [reflexivity|constructor].
  - exists 0. split; [reflexivity|lia].
Defined.

(** On a field whose every cell is occupied, no pass leaves the loop. *)
Lemma spawnOrb_full_pending self tape :
  0 ≤ Screen.mapWidth self → 0 ≤ Screen.mapHeight self →
  (∀ q, in_field self q → occupied self q) →
  spawnOrb tape self = Pending.
Proof.
  intros Hw Hh Hfull.
  induction tape as [tape IH] using (induction_ltof1 _ (@length N)).
  destruct tape as [|r1 [|r2 tape]]; [done..|].
  rewrite spawnOrb_pass by done.
  assert (Hocc : occupied self (candidate self r1 r2)).
  { apply Hfull. by apply candidate_in_field. }
  unfold occupied in Hocc. rewrite Hocc. simpl.
  rewrite spawnOrb_set_orb. apply IH. unfold ltof. simpl. lia.
Qed.

(** C7, as the code has it.  When every cell of the field is occupied,
    [spawnOrb] never leaves its loop: whatever [rand()] returns and however
    long the tape of its results, every pass is rejected and the loop is
    still running when the tape ends.  The loop has no exit but a free
    sample, and no count of occupied cells is kept or compared. *)
Theorem spawnOrb_spins_when_full self :
  0 ≤ Screen.mapWidth self → 0 ≤ Screen.mapHeight self →
  (∀ q, in_field self q → occupied self q) →
  ∀ tape,
    spawnOrb tape self = Pending ∧
    ∀ self' tape', spawnOrb tape self ≠ Returns (self', tape').
Proof.
  intros Hw Hh Hfull tape.
  rewrite (spawnOrb_full_pending self tape Hw Hh Hfull). done.
Qed.

Lemma full_screen_full q : in_field full_screen q → occupied full_screen q.
Proof.
  destruct q as [x y]. unfold in_field, occupied. simpl. intros [Hx Hy].
  assert (Hxy : (x = 0 ∨ x = 1) ∧ (y = 0 ∨ y = 1)) by lia.
  by destruct Hxy as [[-> | ->] [-> | ->]].
Qed.

Lemma spawnOrb_spins_when_full_witness :
  0 ≤ Screen.mapWidth full_screen ∧ 0 ≤ Screen.mapHeight full_screen ∧
  spawnOrb [0; 0; 1; 0; 0; 1; 1; 1; 2; 3]%N full_screen = Pending.
Proof.
  assert (Hw : 0 ≤ Screen.mapWidth full_screen) by (simpl; lia).
  assert (Hh : 0 ≤ Screen.mapHeight full_screen) by (simpl; lia).
  split; [exact Hw|]. split; [exact Hh|].
  apply (spawnOrb_spins_when_full full_screen Hw Hh full_screen_full).
Defined.

(** C7 as stated fails on the field of two by two cells, all occupied:
    [spawnOrb] samples every cell, rejects each, and is still in its loop
    when the results of [rand()] run out; it returns on no tape. *)
Lemma spawnOrb_no_board_full_outcome :
  grid_get (Screen.grid full_screen) 0 0 = Some 1 ∧
  grid_get (Screen.grid full_screen) 0 1 = Some 1 ∧
  grid_get (Screen.grid full_screen) 1 0 = Some 1 ∧
  grid_get (Screen.grid full_screen) 1 1 = Some 1 ∧
  spawnOrb [0; 0; 1; 0; 0; 1; 1; 1]%N full_screen = Pending ∧
  ∀ tape self' tape', spawnOrb tape full_screen ≠ Returns (self', tape').
Proof.
  repeat (split; [reflexivity|]).
  intros tape self' tape'.
  rewrite (spawnOrb_full_pending full_screen tape); [done|simpl; lia..|].
  apply full_screen_full.
Qed.

(** ** The grid *)

(** [newScreen] clears the whole grid. *)
Lemma newScreen_grid_clear maxx maxy p :
  in_field (newScreen maxx maxy) p →
  grid_get (Screen.grid (newScreen maxx maxy)) (Point.y p) (Point.x p) = Some 0.
Proof.
  unfold in_field, newScreen, grid_get. simpl. intros [Hx Hy].
  destruct (Z.leb_spec 0 (Point.y p)); [|lia].
  destruct (Z.leb_spec 0 (Point.x p)); [|lia]. simpl.
  rewrite lookup_replicate_2 by lia. simpl.
  by rewrite lookup_replicate_2 by lia.
Qed.

(** [spawnOrb] writes the orb and nothing else. *)
Lemma spawnOrb_only_orb tape self self' tape' :
  spawnOrb tape self = Returns (self', tape') →
  ∃ p, self' = Screen.set_orb p self.
Proof.
  revert self self'.
  induction tape as [tape IH] using (induction_ltof1 _ (@length N)).
  intros self self'. destruct tape as [|r1 [|r2 tape]]; [done..|].
  simpl. destruct (_ || _); [done|].
  destruct (grid_get _ _ _) as [c|]; simpl; [|done].
  destruct (c =? 1); [|intros [= <- <-]; eauto].
  rewrite spawnOrb_set_orb. apply IH. unfold ltof. simpl. lia.
Qed.

Lemma outcome_bind_Returns {A B} (m : outcome A) (k : A → outcome B) b :
  m ≫= k = Returns b → ∃ a, m = Returns a ∧ k a = Returns b.
Proof. destruct m; simpl; intros H; try done. eauto. Qed.

Lemma defined_Returns {A} (o : option A) a :
  defined o = Returns a → o = Some a.
Proof. destruct o; simpl; intros H; by simplify_eq. Qed.

(** At the start of every round the grid is clear, the head's cell
    included: whatever the terminal, [rand()] and the player give, the grid
    does not mirror the snake when the centre is a cell of the field. *)
Lemma round_start_never_mirrors term tape answers g ev :
  start term tape answers = Returns (g, ev) →
  0 ≤ Screen.mapWidth (Game.screen g) →
  0 ≤ Screen.mapHeight (Game.screen g) →
  (∀ p, in_field (Game.screen g) p →
        grid_get (Screen.grid (Game.screen g)) (Point.y p) (Point.x p) = Some 0) ∧
  ¬ grid_mirrors_snake g.
Proof.
  unfold start. intros H.
  apply outcome_bind_Returns in H as ([r tape1] & _ & H).
  unfold newSnake, newNode in H. cbv zeta in H.
  change (malloc ∅) with 1%positive in H.
  apply outcome_bind_Returns in H as ([[q d] answers1] & _ & H).
  apply outcome_bind_Returns in H as ([screen1 tape2] & Hspawn & H).
  injection H as <- <-. simpl.
  apply spawnOrb_only_orb in Hspawn as (p0 & ->).
  intros Hw Hh.
  assert (Hclear : ∀ p,
    in_field (Screen.set_orb p0 (newScreen term.1 term.2)) p →
    grid_get (Screen.grid (Screen.set_orb p0 (newScreen term.1 term.2)))
      (Point.y p) (Point.x p) = Some 0).
  { intros p Hp. by apply (newScreen_grid_clear term.1 term.2 p). }
  split; [exact Hclear|].
  intros Hmirror.
  set (c := center (newScreen term.1 term.2)).
  assert (Hc : in_field (Screen.set_orb p0 (newScreen term.1 term.2)) c).
  { unfold in_field, c, center. simpl in *.
    split.
    - split; [apply Z.quot_pos; lia|].
      apply Z.quot_le_upper_bound; lia.
    - split; [apply Z.quot_pos; lia|].
      apply Z.quot_le_upper_bound; lia. }
  destruct (Hmirror c Hc) as [_ Hocc].
  assert (Hone : occupied (Screen.set_orb p0 (newScreen term.1 term.2)) c).
  { apply Hocc. exists [1%positive], 1%positive. simpl. split; [|split].
    - split; [done|]. eexists. split; [apply lookup_insert_eq|done].
    - left.
    - unfold pos_at. by rewrite lookup_insert_eq. }
  unfold occupied in Hone. rewrite (Hclear c Hc) in Hone. done.
Qed.

(** C5, run on the code.  A round on a terminal of 80 by 24, right after
    its start: the only segment lies on the centre (9, 7), a cell of the
    field, and the grid holds 0 there, so the grid does not mirror the
    snake; [spawnOrb], given 9 and 7 by [rand()], has put the orb on that
    very cell.  And in the middle of the round [round2], after the frames
    of [keys2] and one more: a segment lies on (12, 7) and the grid holds 0
    there. *)
Theorem grid_does_not_mirror_snake :
  (∃ g ev,
     round0 = Returns (g, ev) ∧
     Snake.head (Game.snake g) = Some 1%positive ∧
     Snake.tail (Game.snake g) = Some 1%positive ∧
     Snake.length (Game.snake g) = 1 ∧
     pos_at (Game.heap g) 1%positive = Point.mk 9 7 ∧
     in_field (Game.screen g) (Point.mk 9 7) ∧
     grid_get (Screen.grid (Game.screen g)) 7 9 = Some 0 ∧
     Screen.orb (Game.screen g) = Some (Point.mk 9 7) ∧
     ¬ grid_mirrors_snake g) ∧
  (∃ g ev l,
     (g ← round2; run (80, 24) (keys2 ++ [KeyNone]) g.1) = Returns (g, ev) ∧
     Game.quit g = false ∧
     walk Node.next 5 (Game.heap g) (Snake.tail (Game.snake g)) = Some l ∧
     positions (Game.heap g) l =
       [Point.mk 12 8; Point.mk 11 8; Point.mk 11 7; Point.mk 12 7;
        Point.mk 13 7] ∧
     grid_get (Screen.grid (Game.screen g)) 7 12 = Some 0 ∧
     ¬ grid_mirrors_snake g).
Proof.
  split.
  - eexists _, _. split; [vm_compute; reflexivity|].
    repeat (split; [vm_compute; done|]).
    intros Hmirror.
    destruct (Hmirror (Point.mk 9 7)) as [_ Hocc]; [vm_compute; done|].
    lapply Hocc; [intros Hone; vm_compute in Hone; done|].
    eexists _, 1%positive. split; [|split].
    + apply (walk_lseg _ 1). vm_compute. reflexivity.
    + repeat constructor.
    + vm_compute. reflexivity.
  - eexists _, _, _. split; [vm_compute; reflexivity|].
    split; [reflexivity|]. split; [vm_compute; reflexivity|].
    split; [vm_compute; reflexivity|]. split; [vm_compute; reflexivity|].
    intros Hmirror.
    destruct (Hmirror (Point.mk 12 7)) as [_ Hocc]; [vm_compute; done|].
    lapply Hocc; [intros Hone; vm_compute in Hone; done|].
    eexists _, 8%positive. split; [|split].
    + apply (walk_lseg _ 5). vm_compute. reflexivity.
    + repeat constructor.
    + vm_compute. reflexivity.
Qed.

(** ** Progress and the frame delay *)

(** C9, run on the code.  The first frame of the round [round1] eats the
    orb: the snake has length 2 on a field of 20 by 16 cells, and progress
    becomes 2/285 (length over mapWidth * mapHeight = 19 * 15), not
    2/320.  With mapWidth = mapHeight = 10 (121 cells) and length 50 the
    code's progress is 0.5, the specification's 50/121; at length 110
    progress is above 1 and the INCREMENTAL delay is 28333333 ns, below the
    HARD delay of 33333333 ns, which INCREMENTAL reaches at length 100
    already. *)
Theorem progress_divides_by_mapWidth_times_mapHeight :
  (∃ g ev,
     (g ← round1; frame (80, 24) KeyNone g.1) = Returns (g, ev) ∧
     Snake.length (Game.snake g) = 2 ∧
     Screen.mapWidth (Game.screen g) = 19 ∧
     Screen.mapHeight (Game.screen g) = 15 ∧
     Game.progress g = float_div (float_of_Z 2) (float_of_Z 285) ∧
     Game.progress g ≠ spec_progress 2 19 15) ∧
  progress_update 50 10 10 = S754_finite false 8388608 (-24) ∧
  spec_progress 50 10 10 = S754_finite false 13865468 (-25) ∧
  progress_update 110 10 10 = S754_finite false 9227469 (-23) ∧
  frame_delay INCREMENTAL (progress_update 110 10 10) = Some 28333333 ∧
  frame_delay INCREMENTAL (progress_update 100 10 10) = Some 33333333 ∧
  frame_delay HARD (progress_update 110 10 10) = Some 33333333.
Proof.
  split.
  - eexists _, _. split; [vm_compute; reflexivity|].
    repeat (split; [vm_compute; done|]).
    vm_compute. discriminate.
  - repeat split; vm_compute; reflexivity.
Qed.

(** ** The quit key *)

(** Whatever the state, a frame that reads the quit key and returns has
    called [advance] and has slept the frame delay as its last call. *)
Lemma frame_quit_runs term g g' ev :
  frame term KeyQuit g = Returns (g', ev) →
  (∃ oldTail s' h',
     advance (Game.snake g) (Game.heap g) = Some (oldTail, s', h')) ∧
  EvAdvance ∈ ev ∧
  ∃ ns, last ev = Some (EvSleep ns) ∧
        frame_delay (Game.difficulty g') (Game.progress g') = Some ns.
Proof.
  unfold frame. simpl handle_key. cbv zeta. intros H.
  apply outcome_bind_Returns in H
    as ([[oldTail s2] h2] & Hadv%defined_Returns & H).
  apply outcome_bind_Returns in H as (oldTailPos & _ & H).
  apply outcome_bind_Returns in H as (headPos & _ & H).
  apply outcome_bind_Returns in H as (orb & _ & H).
  apply outcome_bind_Returns in H
    as ([[[[[[growing s3] h3] screen3] tape3] progress3] ev3] & _ & H).
  apply outcome_bind_Returns in H as (inside & _ & H).
  apply outcome_bind_Returns in H as ([screen4 ev4] & _ & H).
  apply outcome_bind_Returns in H as ([[hit collision5] ev5] & _ & H).
  apply outcome_bind_Returns in H as ([g6 ev6] & _ & H).
  apply outcome_bind_Returns in H as (ns & Hns%defined_Returns & H).
  injection H as <- <-.
  split; [eauto|]. split; [simpl; left|].
  exists ns. split; [|done]. apply last_Some.
  exists (EvAdvance :: ev3 ++ EvInsideBoundaries inside :: ev4 ++ ev5 ++ ev6).
  repeat (rewrite <- app_assoc || rewrite <- app_comm_cons). reflexivity.
Qed.

(** C10, run on the code.  In the round [round0], a first frame whose key
    is the quit key sets the flag and then runs all of the frame: the snake
    advances, the old tail is freed, the boundary is checked, the frame is
    drawn, self-collision is checked and the frame delay is slept.  When the
    quit key comes in the frame in which the snake, two segments long after
    the frames of [keys3] in the round [round3], leaves the field, the
    dialog's answer overwrites the flag: the player who answers with play
    again gets a new round and the quit is lost.  The other copy of [main]
    leaves the loop at once on that key. *)
Theorem quit_key_runs_the_frame :
  (∃ g ev,
     round0_after [KeyQuit] = Returns (g, ev) ∧
     Game.quit g = true ∧
     Snake.head (Game.snake g) = Some 2%positive ∧
     pos_at (Game.heap g) 2%positive = Point.mk 10 7 ∧
     ev = [EvAdvance; EvDestroyNode; EvInsideBoundaries true; EvDraw;
           EvSelfCollision None; EvSleep 83333333]) ∧
  (∃ g0 ev0 g ev,
     (g ← round3; run (80, 24) keys3 g.1) = Returns (g0, ev0) ∧
     Game.quit g0 = false ∧
     Snake.length (Game.snake g0) = 2 ∧
     frame (80, 24) KeyQuit g0 = Returns (g, ev) ∧
     Game.quit g = false ∧
     Snake.length (Game.snake g) = 1 ∧
     ev = [EvAdvance; EvDestroyNode; EvInsideBoundaries false;
           EvDrawPoint (Point.mk 10 0); EvDialog 2; EvDrawWalls;
           EvSpawnOrb (Some (Point.mk 5 5)); EvUpdateScore 1;
           EvSleep 83333333]) ∧
  (∀ s, handle_key_goto KeyQuit s = None).
Proof.
  split; [|split].
  - eexists _, _. split; [vm_compute; reflexivity|].
    repeat split; vm_compute; reflexivity.
  - eexists _, _, _, _. split; [vm_compute; reflexivity|].
    split; [reflexivity|]. split; [reflexivity|].
    split; [vm_compute; reflexivity|].
    repeat split; vm_compute; reflexivity.
  - done.
Qed.

(** * Further properties of the code *)

(** ** The chain between frames *)

(** X1. In every state between two frames (after [newSnake], and after any
    sequence of [changeDirection], [advance]+[destroyNode] and
    [advance]+[grow]), the [next] links lead from the tail through exactly
    [length] distinct allocated segments and end at the head, whose [next]
    is NULL; [length] is at least 1; and head and tail are the same node
    exactly when [length] is 1. *)
Theorem settled_chain_shape s h :
  settled s h →
  ∃ l hd,
    lseg Node.next h (Snake.tail s) l None ∧ NoDup l ∧
    (∀ a, a ∈ l → is_Some (h !! a)) ∧
    Snake.head s = Some hd ∧ last l = Some hd ∧
    Node.next <$> h !! hd = Some None ∧
    Z.of_nat (length l) = Snake.length s ∧
    1 ≤ Snake.length s ∧
    (Snake.head s = Snake.tail s ↔ Snake.length s = 1).
Proof.
  intros (t & rest & b & Hinv)%settled_inv.
  destruct Hinv as [Hnd Ht Hh Hlen Hnext _ _].
  destruct (last (t :: rest)) as [hd|] eqn:Hlast;
    [|by apply last_None in Hlast].
  exists (t :: rest), hd. rewrite Ht, Hlen.
  split; [done|]. split; [done|].
  split; [intros a Ha; by eapply lseg_allocated|].
  split; [done|]. split; [done|]. split.
  { pose proof Hlast as (l0 & Hl0)%last_Some. rewrite Hl0 in Hnext.
    by apply lseg_snoc in Hnext as [_ ?]. }
  split; [done|]. split; [simpl length; lia|].
  rewrite Hh. apply NoDup_cons in Hnd as [Htr _].
  destruct rest as [|t' rest]; simpl in *.
  - simplify_eq. split; [done|]. by intros _.
  - split; [|lia]. intros [= ->]. exfalso. apply Htr.
    by apply last_Some_elem_of.
Qed.

Lemma settled_chain_shape_witness :
  ∃ l, lseg Node.next snake0.2 (Snake.tail snake0.1) l None ∧
       Z.of_nat (length l) = Snake.length snake0.1.
Proof.
  destruct (settled_chain_shape snake0.1 snake0.2
              (settled_newSnake center0 1 ∅))
    as (l & hd & Hl & _ & _ & _ & _ & _ & Hlen & _).
  exists l. split; [exact Hl|exact Hlen].
Defined.

(** X2. An eating frame, [advance] followed by [grow] on the node it
    returned, always succeeds on a snake of the kept shape and adds exactly
    one segment: one node is allocated (the new head), none is freed, the
    tail is the tail as before, the [next] chain is the old chain followed
    by the new head, [length] grows by one, and no older segment moves. *)
Theorem advance_grow_adds_head s h t rest b :
  snake_inv s h t rest b →
  ∃ n s1 h1 s2 h2,
    advance s h = Some (Some t, s1, h1) ∧
    grow s1 (Some t) h1 = Some (s2, h2) ∧
    h !! n = None ∧ dom h2 = {[n]} ∪ dom h ∧
    Snake.tail s2 = Some t ∧ Snake.head s2 = Some n ∧
    lseg Node.next h2 (Snake.tail s2) (t :: rest ++ [n]) None ∧
    Snake.length s2 = Snake.length s + 1 ∧
    Snake.direction s2 = Snake.direction s ∧
    (∀ a, a ≠ n → Node.pos <$> h2 !! a = Node.pos <$> h !! a).
Proof.
  intros Hinv.
  destruct (advance_run _ _ _ _ _ Hinv)
    as (hd & hn & h1 & Hh & Hhn & Hrun & Vnext & Vprev & Vpos).
  destruct (advance_inv _ _ _ _ _ Hinv)
    as (s1 & h1' & t' & rest' & Hrun' & Hl & Hinv1).
  destruct (advance_detached _ _ _ _ _ _ _ _ Hinv Hrun)
    as (_ & Hnin & Hprev & Hpos & Hal).
  rewrite Hrun in Hrun'. injection Hrun' as <- <-.
  rewrite Hl in Hnin.
  destruct (grow_inv _ _ _ _ _ Hinv1 Hnin Hprev) as (s2 & h2 & Hg & Hinv2).
  pose proof (malloc_fresh h) as Hfresh.
  exists (malloc h). eexists _, h1, s2, h2.
  split; [exact Hrun|]. split; [exact Hg|]. split; [done|].
  assert (Hh2 : ∀ a, Node.pos <$> h2 !! a = Node.pos <$> h1 !! a).
  { intros a. unfold grow in Hg. simpl in Hg.
    destruct (h1 !! t) as [tn|] eqn:Htn; [|done]. simpl in Hg.
    injection Hg as <- <-. rewrite lookup_insert. case_decide; [|done].
    subst a. by rewrite Htn. }
  assert (Hs2 : Snake.head s2 = Some (malloc h) ∧
                Snake.length s2 = Snake.length s + 1 ∧
                Snake.direction s2 = Snake.direction s).
  { unfold grow in Hg. simpl in Hg.
    destruct (h1 !! t) as [tn|] eqn:Htn; [|done]. simpl in Hg.
    by injection Hg as <- <-. }
  destruct Hs2 as (Hhead2 & Hlen2 & Hdir2).
  split.
  { apply set_eq. intros a.
    rewrite elem_of_union, elem_of_singleton, !elem_of_dom.
    rewrite <- (fmap_is_Some Node.pos (h2 !! a)), Hh2, Vpos.
    case_decide as Ha.
    - split; [by left|by eauto].
    - rewrite fmap_is_Some. split; [by right|by intros [?|?]]. }
  destruct Hinv2 as [_ Ht2 _ _ Hnext2 _ _].
  split; [done|]. split; [done|].
  split; [by rewrite Ht2, Hl|].
  split; [done|]. split; [done|].
  intros a Ha. by rewrite Hh2, Vpos, decide_False.
Qed.

Lemma advance_grow_adds_head_witness :
  ∃ s1 h1 s2 h2,
    advance snake0.1 snake0.2 = Some (Some 1%positive, s1, h1) ∧
    grow s1 (Some 1%positive) h1 = Some (s2, h2) ∧
    Snake.length s2 = 2.
Proof.
  destruct (advance_grow_adds_head snake0.1 snake0.2 _ _ _
              (newSnake_inv center0 1 ∅))
    as (n & s1 & h1 & s2 & h2 & Ha & Hg & _ & _ & _ & _ & _ & Hlen & _).
  exists s1, h1, s2, h2. split; [exact Ha|]. split; [exact Hg|exact Hlen].
Defined.

(** The nodes allocated after [advance]: those before, and the new head. *)
Lemma advance_dom s h t rest b r s' h' :
  snake_inv s h t rest b →
  advance s h = Some (r, s', h') →
  dom h' = {[malloc h]} ∪ dom h ∧
  Snake.head s' = Some (malloc h) ∧
  Snake.length s' = Snake.length s ∧
  Snake.direction s' = Snake.direction s.
Proof.
  intros Hinv Hadv.
  destruct (advance_run _ _ _ _ _ Hinv)
    as (hd & hn & h1 & Hh & Hhn & Hrun & Vnext & Vprev & Vpos).
  rewrite Hrun in Hadv. injection Hadv as <- <- <-.
  split; [|done].
  apply set_eq. intros a.
  rewrite elem_of_union, elem_of_singleton, !elem_of_dom.
  rewrite <- (fmap_is_Some Node.pos (h1 !! a)), Vpos.
  case_decide as Ha.
  - split; [by left|by eauto].
  - rewrite fmap_is_Some. split; [by right|by intros [?|?]].
Qed.

(** X3. A frame without eating, [advance] followed by [destroyNode] on the
    node it returned, always succeeds on a snake of the kept shape; it
    allocates one node and frees one, so the number of allocated nodes is
    as before; the freed node is the old tail, and neither chain of the
    snake leads to it: both hold the old segments but the tail, then the new
    head. *)
Theorem advance_destroyNode_moves s h t rest b :
  snake_inv s h t rest b →
  ∃ n s1 h1 h2,
    advance s h = Some (Some t, s1, h1) ∧
    destroyNode (Some t) h1 = Some h2 ∧
    h !! n = None ∧ h2 !! t = None ∧
    dom h2 = {[n]} ∪ (dom h ∖ {[t]}) ∧
    size h2 = size h ∧
    lseg Node.next h2 (Snake.tail s1) (rest ++ [n]) None ∧
    lseg Node.prev h2 (Snake.head s1) (reverse (rest ++ [n])) None ∧
    (t ∉ rest ++ [n]) ∧
    Snake.length s1 = Snake.length s.
Proof.
  intros Hinv.
  destruct (advance_inv _ _ _ _ _ Hinv)
    as (s1 & h1 & t' & rest' & Hrun & Hl & Hinv1).
  destruct (advance_detached _ _ _ _ _ _ _ _ Hinv Hrun)
    as (_ & Hnin & _ & Hpos & Hal).
  destruct (advance_dom _ _ _ _ _ _ _ _ Hinv Hrun) as (Hdom & _ & Hlen & _).
  pose proof (malloc_fresh h) as Hfresh.
  assert (Hal1 : is_Some (h1 !! t)).
  { apply (fmap_is_Some Node.pos). rewrite Hpos. by apply fmap_is_Some. }
  assert (Htn : t ≠ malloc h).
  { intros ->. destruct Hal as [x Hx]. congruence. }
  pose proof Hnin as Hnin'. rewrite Hl in Hnin'.
  destruct (destroyNode_inv _ _ _ _ _ _ Hinv1 Hnin' Hal1)
    as (h2 & Hd & -> & Hinv2).
  exists (malloc h), s1, h1, (delete t h1).
  split; [done|]. split; [done|]. split; [done|].
  split; [apply lookup_delete_eq|].
  assert (Hdom2 : dom (delete t h1) = {[malloc h]} ∪ (dom h ∖ {[t]})).
  { rewrite dom_delete_L, Hdom. apply set_eq. intros a.
    rewrite elem_of_difference, !elem_of_union, elem_of_difference,
      !elem_of_singleton.
    clear -Htn. intuition congruence. }
  split; [done|]. split.
  { rewrite <- !size_dom, Hdom2.
    rewrite size_union by (apply disjoint_singleton_l;
      rewrite elem_of_difference, elem_of_dom, Hfresh; by intros [[? ?] _]).
    rewrite size_singleton, size_difference
      by (apply singleton_subseteq_l; by apply elem_of_dom).
    rewrite size_singleton.
    assert (size (dom h) ≠ 0)%nat; [|lia].
    apply size_non_empty_iff. intros He.
    apply elem_of_dom in Hal. rewrite He in Hal.
    exact (not_elem_of_empty _ Hal). }
  pose proof (inv_prev_chain _ _ _ _ Hinv2) as Hprev2.
  destruct Hinv2 as [_ Ht2 _ _ Hnext2 _ _].
  rewrite <- Ht2 in Hnext2. rewrite <- Hl in Hnext2, Hprev2.
  done.
Qed.

Lemma advance_destroyNode_moves_witness :
  ∃ s1 h1 h2,
    advance snake0.1 snake0.2 = Some (Some 1%positive, s1, h1) ∧
    destroyNode (Some 1%positive) h1 = Some h2 ∧
    size h2 = size snake0.2.
Proof.
  destruct (advance_destroyNode_moves snake0.1 snake0.2 _ _ _
              (newSnake_inv center0 1 ∅))
    as (n & s1 & h1 & h2 & Ha & Hd & _ & _ & _ & Hsize & _).
  exists s1, h1, h2. split; [exact Ha|]. split; [exact Hd|exact Hsize].
Defined.

(** X4. [grow] does not check that its node is detached.  Called on the
    snake's own tail it succeeds and makes the tail its own [next]: from
    then on no walk along [next] from the tail comes to an end. *)
Theorem grow_on_own_tail_cycles s h t :
  Snake.tail s = Some t → is_Some (h !! t) →
  ∃ s' h',
    grow s (Some t) h = Some (s', h') ∧
    Snake.tail s' = Some t ∧
    Snake.length s' = Snake.length s + 1 ∧
    Node.next <$> h' !! t = Some (Some t) ∧
    (∀ l, ¬ lseg Node.next h' (Snake.tail s') l None) ∧
    (∀ fuel, walk Node.next fuel h' (Snake.tail s') = None).
Proof.
  intros Ht [tn Htn]. unfold grow. simpl. rewrite Htn. simpl.
  eexists _, _. split; [done|]. simpl. split; [done|]. split; [done|].
  assert (Hnext : Node.next <$> <[t:=Node.set_next (Snake.tail s) tn]> h !! t
                  = Some (Some t)).
  { by rewrite lookup_insert_eq, Ht. }
  split; [done|].
  assert (Hno : ∀ l, ¬ lseg Node.next (<[t:=Node.set_next (Snake.tail s) tn]> h)
                         (Some t) l None).
  { induction l as [|a l IH]; [done|].
    intros (Ha & nx & Hn & Hl)%lseg_cons.
    injection Ha as <-.
    rewrite Hnext in Hn. injection Hn as <-. by apply IH. }
  split; [done|].
  intros fuel.
  destruct (walk Node.next fuel _ (Some t)) as [l|] eqn:Hw; [|done].
  apply walk_lseg in Hw. by apply Hno in Hw.
Qed.

Lemma grow_on_own_tail_cycles_witness :
  ∃ s' h',
    grow snake0.1 (Some 1%positive) snake0.2 = Some (s', h') ∧
    walk Node.next 10 h' (Snake.tail s') = None.
Proof.
  assert (Ht : Snake.tail snake0.1 = Some 1%positive) by reflexivity.
  assert (Hal : is_Some (snake0.2 !! 1%positive)).
  { exists (Node.mk center0 None None). vm_compute. reflexivity. }
  destruct (grow_on_own_tail_cycles snake0.1 snake0.2 1%positive Ht Hal)
    as (s' & h' & Hg & _ & _ & _ & _ & Hw).
  exists s', h'. split; [exact Hg|apply Hw].
Defined.

(** X5. On a snake of the kept shape, whatever its length, [destroySnake]
    returns after freeing one node, the head: every other segment is still
    allocated, with its contents, afterwards.  [destroySnake(NULL)] changes
    nothing. *)
Theorem destroySnake_frees_the_head s h t rest b fuel :
  snake_inv s h t rest b →
  ∃ hd,
    Snake.head s = Some hd ∧ last (t :: rest) = Some hd ∧
    destroySnake (S fuel) (Some s) h = Some (delete hd h) ∧
    (∀ a, a ∈ t :: rest → a ≠ hd →
          is_Some (h !! a) ∧ delete hd h !! a = h !! a) ∧
    destroySnake (S fuel) None h = Some h.
Proof.
  intros Hinv.
  destruct (destroySnake_frees_head_only s h t rest b fuel Hinv)
    as (hd & Hh & Hrun & Hrest).
  exists hd. split; [done|]. split; [destruct Hinv; congruence|].
  split; [done|]. split; [|done].
  intros a Ha Hne. rewrite lookup_delete_ne by done. split; [|done].
  destruct Hinv as [_ _ _ _ Hnext _ _].
  by apply (lseg_allocated _ _ _ _ _ a Hnext).
Qed.

Lemma destroySnake_frees_the_head_witness :
  ∃ s h, grown0 = Some (s, h) ∧
         destroySnake 1 (Some s) h = Some (delete 2%positive h).
Proof.
  eexists _, _. split; [exact grown0_runs|].
  match goal with
  | |- destroySnake _ (Some ?s) ?h = _ =>
      assert (Hinv : snake_inv s h 1%positive [2%positive] true)
  end.
  { constructor.
    - apply NoDup_cons. split; [|apply NoDup_singleton].
      by rewrite list_elem_of_singleton.
    - reflexivity.
    - reflexivity.
    - reflexivity.
    - repeat (split; [reflexivity|]; eexists; split; [vm_compute; reflexivity|]).
      reflexivity.
    - repeat (split; [reflexivity|]; eexists; split; [vm_compute; reflexivity|]).
      reflexivity.
    - vm_compute. reflexivity. }
  destruct (destroySnake_frees_the_head _ _ _ _ _ 0%nat Hinv)
    as (hd & Hh & _ & Hrun & _).
  injection Hh as <-. exact Hrun.
Defined.

(** ** Positions along the chain *)

Lemma snoc_eq_middle {A} (l : list A) x l1 p q l2 :
  l ++ [x] = l1 ++ p :: q :: l2 →
  (l2 = [] ∧ q = x ∧ l = l1 ++ [p]) ∨
  (∃ l2', l2 = l2' ++ [x] ∧ l = l1 ++ p :: q :: l2').
Proof.
  destruct l2 as [|y l2 _] using rev_ind.
  - intros H. left.
    change (l1 ++ [p; q]) with (l1 ++ [p] ++ [q]) in H.
    rewrite app_assoc in H. apply app_inj_tail in H as [-> ->]. done.
  - intros H. right. exists l2.
    change (l1 ++ p :: q :: l2 ++ [y]) with (l1 ++ (p :: q :: l2) ++ [y]) in H.
    rewrite app_assoc in H. apply app_inj_tail in H as [-> ->]. done.
Qed.

Lemma stepwise_snoc ps p0 x :
  stepwise ps → last ps = Some p0 → (∃ d, x = step d p0) →
  stepwise (ps ++ [x]).
Proof.
  intros Hps Hlast Hx l1 p q l2 Heq.
  apply snoc_eq_middle in Heq as [(-> & -> & ->)|(l2' & -> & ->)].
  - rewrite last_snoc in Hlast. by injection Hlast as ->.
  - by eapply Hps.
Qed.

Lemma stepwise_tail p ps : stepwise (p :: ps) → stepwise ps.
Proof. intros H l1 a b l2 ->. by apply (H (p :: l1) a b l2). Qed.


Lemma positions_ext h h' l :
  (∀ a, a ∈ l → pos_at h' a = pos_at h a) →
  positions h' l = positions h l.
Proof.
  intros H. unfold positions. apply list_fmap_ext.
  intros i a Ha. apply H. by eapply list_elem_of_lookup_2.
Qed.

Lemma pos_at_fmap h h' a :
  Node.pos <$> h' !! a = Node.pos <$> h !! a → pos_at h' a = pos_at h a.
Proof. unfold pos_at. by intros ->. Qed.

(** Positions after [advance]: the older nodes keep theirs, the new head
    lies one step from the old head. *)
Lemma advance_positions s h t rest b r s' h' :
  snake_inv s h t rest b →
  advance s h = Some (r, s', h') →
  ∃ hd,
    Snake.head s = Some hd ∧ last (t :: rest) = Some hd ∧
    (∀ a, a ≠ malloc h → pos_at h' a = pos_at h a) ∧
    pos_at h' (malloc h) = step (Snake.direction s) (pos_at h hd) ∧
    positions h' (t :: rest ++ [malloc h]) =
      positions h (t :: rest) ++ [step (Snake.direction s) (pos_at h hd)].
Proof.
  intros Hinv Hadv.
  destruct (advance_run _ _ _ _ _ Hinv)
    as (hd & hn & h1 & Hh & Hhn & Hrun & Vnext & Vprev & Vpos).
  rewrite Hrun in Hadv. injection Hadv as <- <- <-.
  pose proof (malloc_fresh h) as Hfresh.
  exists hd. split; [done|].
  split; [destruct Hinv; congruence|].
  assert (Hold : ∀ a, a ≠ malloc h → pos_at h1 a = pos_at h a).
  { intros a Ha. apply pos_at_fmap. by rewrite Vpos, decide_False. }
  assert (Hnew : pos_at h1 (malloc h)
                 = step (Snake.direction s) (pos_at h hd)).
  { unfold pos_at. rewrite Vpos, decide_True by done. by rewrite Hhn. }
  split; [done|]. split; [done|].
  change (t :: rest ++ [malloc h]) with ((t :: rest) ++ [malloc h]).
  assert (Happ : positions h1 ((t :: rest) ++ [malloc h])
                 = positions h1 (t :: rest) ++ [pos_at h1 (malloc h)])
    by (unfold positions; by rewrite fmap_app).
  rewrite Happ, Hnew. f_equal.
  apply positions_ext. intros a Ha. apply Hold. intros ->.
  destruct Hinv as [_ _ _ _ Hnext _ _].
  destruct (lseg_allocated _ _ _ _ _ _ Hnext Ha) as [x Hx]. congruence.
Qed.

Lemma last_positions h l a :
  last l = Some a → last (positions h l) = Some (pos_at h a).
Proof. intros H. unfold positions. by rewrite fmap_last, H. Qed.

Lemma grow_positions s h t s' h' a :
  grow s (Some t) h = Some (s', h') → pos_at h' a = pos_at h a.
Proof.
  unfold grow. simpl. destruct (h !! t) as [tn|] eqn:Htn; [|done]. simpl.
  intros [= <- <-]. apply pos_at_fmap. rewrite lookup_insert.
  case_decide; [|done]. subst. by rewrite Htn.
Qed.

(** The segments of a snake between frames, tail first, lie one step
    apart. *)
Lemma settled_stepwise s h :
  settled s h →
  ∃ t rest b, snake_inv s h t rest b ∧ stepwise (positions h (t :: rest)).
Proof.
  induction 1 as [center r h|s h d _ (t & rest & b & IH & Hst)
                 |s h oldTail s' h' h'' _ (t & rest & b & IH & Hst) Hadv Hfree
                 |s h oldTail s' h' s'' h'' _ (t & rest & b & IH & Hst) Hadv Hgrow].
  - eexists _, _, _. split; [apply newSnake_inv|].
    intros l1 p q l2 Heq. simpl in Heq.
    apply (f_equal length) in Heq. rewrite length_app in Heq. simpl in Heq. lia.
  - eexists _, _, _. split; [by apply changeDirection_inv|done].
  - destruct (advance_inv _ _ _ _ _ IH)
      as (s1 & h1 & t' & rest' & Hrun & Hl & Hinv).
    destruct (advance_detached _ _ _ _ _ _ _ _ IH Hadv)
      as (-> & Hnin & _ & Hpos & Hal).
    destruct (advance_positions _ _ _ _ _ _ _ _ IH Hadv)
      as (hd & Hh & Hlast & Hold & Hnew & Hps).
    rewrite Hrun in Hadv. injection Hadv as <- <-.
    rewrite Hl in Hnin.
    assert (Hal' : is_Some (h1 !! t)).
    { apply (fmap_is_Some Node.pos). rewrite Hpos. by apply fmap_is_Some. }
    destruct (destroyNode_inv _ _ _ _ _ _ Hinv Hnin Hal')
      as (h2 & Hd & -> & Hinv2).
    rewrite Hd in Hfree. injection Hfree as <-.
    exists t', rest', false. split; [done|].
    assert (Hst1 : stepwise (positions h1 (t :: rest ++ [malloc h]))).
    { rewrite Hps. eapply stepwise_snoc; [done| |by eexists].
      by apply last_positions. }
    rewrite Hl in Hst1. apply stepwise_tail in Hst1.
    rewrite (positions_ext h1 (delete t h1)); [done|].
    intros a Ha. apply pos_at_fmap. rewrite lookup_delete_ne; [done|].
    by intros ->.
  - destruct (advance_inv _ _ _ _ _ IH)
      as (s1 & h1 & t' & rest' & Hrun & Hl & Hinv).
    destruct (advance_detached _ _ _ _ _ _ _ _ IH Hadv)
      as (-> & Hnin & Hprev & _ & _).
    destruct (advance_positions _ _ _ _ _ _ _ _ IH Hadv)
      as (hd & Hh & Hlast & Hold & Hnew & Hps).
    rewrite Hrun in Hadv. injection Hadv as <- <-.
    rewrite Hl in Hnin.
    destruct (grow_inv _ _ _ _ _ Hinv Hnin Hprev) as (s2 & h2 & Hg & Hinv2).
    rewrite Hg in Hgrow. injection Hgrow as <- <-.
    exists t, (t' :: rest'), true. split; [done|].
    rewrite <- Hl.
    rewrite (positions_ext h1 h2)
      by (intros a _; by eapply grow_positions).
    rewrite Hps. eapply stepwise_snoc; [done| |by eexists].
    by apply last_positions.
Qed.

Lemma grown0_settled : ∃ s h, grown0 = Some (s, h) ∧ settled s h.
Proof.
  eexists _, _. split; [exact grown0_runs|].
  eapply (settled_grow _ _ (Some 1%positive)
            (Snake.mk (Some 2%positive) (Some 2%positive) EAST 1)
            {[ 1%positive := Node.mk (Point.mk 5 5) None (Some 2%positive);
               2%positive := Node.mk (Point.mk 6 5) None None ]}).
  - apply (settled_newSnake center0 1 ∅).
  - vm_compute. reflexivity.
  - vm_compute. reflexivity.
Qed.

(** X6.  Between frames every segment lies exactly one cell (north, east,
    south or west) from the segment before it on the chain from the tail:
    [advance] puts each new head one step from the old one and nothing
    moves a node afterwards. *)
Theorem settled_segments_one_step_apart s h :
  settled s h →
  ∃ l, lseg Node.next h (Snake.tail s) l None ∧
       ∀ i a b, l !! i = Some a → l !! S i = Some b →
                ∃ d, pos_at h b = step d (pos_at h a).
Proof.
  intros Hs. destruct (settled_stepwise _ _ Hs) as (t & rest & b & Hinv & Hst).
  exists (t :: rest).
  split; [destruct Hinv as [_ Ht _ _ Hnext _ _]; by rewrite Ht|].
  intros i a c Ha Hc.
  apply (Hst (take i (positions h (t :: rest))) (pos_at h a) (pos_at h c)
             (drop (S (S i)) (positions h (t :: rest)))).
  assert (Hpa : positions h (t :: rest) !! i = Some (pos_at h a))
    by (unfold positions; by rewrite list_lookup_fmap, Ha).
  assert (Hpc : positions h (t :: rest) !! S i = Some (pos_at h c))
    by (unfold positions; by rewrite list_lookup_fmap, Hc).
  rewrite <- (drop_S _ _ _ Hpc). symmetry. by apply take_drop_middle.
Qed.

Lemma settled_segments_one_step_apart_witness :
  ∃ s h, grown0 = Some (s, h) ∧
    ∃ l, lseg Node.next h (Snake.tail s) l None ∧
         ∀ i a b, l !! i = Some a → l !! S i = Some b →
                  ∃ d, pos_at h b = step d (pos_at h a).
Proof.
  destruct grown0_settled as (s & h & Hg & Hs).
  exists s, h. split; [exact Hg|].
  exact (settled_segments_one_step_apart s h Hs).
Defined.



Lemma positions_reverse h l : positions h (reverse l) = reverse (positions h l).
Proof. unfold positions. apply fmap_reverse. Qed.

Lemma selfCollision_chain s h l fuel :
  lseg Node.prev h (Snake.head s) l None → (length l ≤ fuel)%nat →
  selfCollision fuel s h = Some (first_repeated (positions h l)).
Proof. apply selfCollision_outer_spec. Qed.



(** X8.  The verdict of [selfCollision] in the frame of a move.  When no
    two segments behind the tail-most one share a cell, the scan after
    [advance] reports the new head's cell exactly when that cell holds one
    of the segments that stay, and nothing otherwise; the detached tail's
    cell never counts, whether the node is freed or re-attached by [grow]. *)
Theorem selfCollision_after_advance s h t rest b r s1 h1 fuel :
  snake_inv s h t rest b →
  NoDup (positions h rest) →
  advance s h = Some (r, s1, h1) →
  (length rest < fuel)%nat →
  ∃ hd,
    Snake.head s = Some hd ∧
    let p := step (Snake.direction s) (pos_at h hd) in
    let verdict := if bool_decide (p ∈ positions h rest) then Some p
                   else None in
    selfCollision fuel s1 h1 = Some verdict ∧
    (∀ h2, destroyNode r h1 = Some h2 →
           selfCollision fuel s1 h2 = Some verdict) ∧
    (∀ s2 h2, grow s1 r h1 = Some (s2, h2) →
              selfCollision fuel s2 h2 = Some verdict).
Proof.
  intros Hinv Hnd Hadv Hf.
  destruct (advance_inv _ _ _ _ _ Hinv)
    as (s1' & h1' & t' & rest' & Hrun & Hl & Hinv1).
  destruct (advance_detached _ _ _ _ _ _ _ _ Hinv Hadv)
    as (-> & Hnin & Hprev & Hpos & Hal).
  destruct (advance_positions _ _ _ _ _ _ _ _ Hinv Hadv)
    as (hd & Hh & Hlast & Hold & Hnew & Hps).
  rewrite Hrun in Hadv. injection Hadv as <- <-.
  rewrite Hl in Hnin.
  exists hd. split; [done|]. intros p verdict.
  assert (Hfresh : malloc h ∉ rest).
  { intros Hin. destruct Hinv as [_ _ _ _ Hnext _ _].
    assert (Hin' : malloc h ∈ t :: rest) by (by right).
    destruct (lseg_allocated _ _ _ _ _ _ Hnext Hin') as [x Hx].
    pose proof (malloc_fresh h). congruence. }
  assert (Hscan : ∀ h', (∀ a, a ∈ rest ++ [malloc h] →
                              pos_at h' a = pos_at h1' a) →
            first_repeated (positions h' (reverse (rest ++ [malloc h])))
            = verdict).
  { intros h' Hext.
    rewrite (positions_ext h1' h') by (intros a Ha; apply Hext;
                                      by rewrite elem_of_reverse in Ha).
    rewrite reverse_app. simpl.
    change (positions h1' (malloc h :: reverse rest))
      with (pos_at h1' (malloc h) :: positions h1' (reverse rest)).
    rewrite Hnew.
    rewrite (positions_ext h h1' (reverse rest)).
    2:{ intros a Ha. apply Hold. rewrite elem_of_reverse in Ha.
        by intros ->. }
    simpl. fold p. rewrite positions_reverse.
    assert (Hnone : first_repeated (reverse (positions h rest)) = None)
      by (apply first_repeated_None; by rewrite reverse_Permutation).
    rewrite Hnone. unfold verdict.
    rewrite (bool_decide_ext _ (p ∈ positions h rest)); [done|].
    apply elem_of_reverse. }
  assert (Hlen : (length (reverse (rest ++ [malloc h])) ≤ fuel)%nat).
  { rewrite length_reverse, length_app. simpl. lia. }
  split; [|split].
  - pose proof (inv_prev_chain _ _ _ _ Hinv1) as Hc. rewrite <- Hl in Hc.
    rewrite (selfCollision_chain _ _ _ _ Hc Hlen). f_equal.
    by apply Hscan.
  - intros h2 Hd.
    assert (Hal' : is_Some (h1' !! t)).
    { apply (fmap_is_Some Node.pos). rewrite Hpos. by apply fmap_is_Some. }
    destruct (destroyNode_inv _ _ _ _ _ _ Hinv1 Hnin Hal')
      as (h2' & Hd' & -> & Hinv2).
    rewrite Hd' in Hd. injection Hd as <-.
    pose proof (inv_prev_chain _ _ _ _ Hinv2) as Hc. rewrite <- Hl in Hc.
    rewrite (selfCollision_chain _ _ _ _ Hc Hlen). f_equal.
    apply Hscan. intros a Ha. apply pos_at_fmap.
    rewrite lookup_delete_ne; [done|]. intros ->. by rewrite Hl in Ha.
  - intros s2 h2 Hg.
    destruct (grow_inv _ _ _ _ _ Hinv1 Hnin Hprev) as (s2' & h2' & Hg' & Hinv2).
    rewrite Hg' in Hg. injection Hg as <- <-.
    pose proof (inv_prev_chain_regrown _ _ _ _ Hinv2) as Hc.
    rewrite <- Hl in Hc.
    rewrite (selfCollision_chain _ _ _ _ Hc Hlen). f_equal.
    apply Hscan. intros a _. by eapply grow_positions.
Qed.

Lemma grown0_inv :
  ∃ s h, grown0 = Some (s, h) ∧ snake_inv s h 1%positive [2%positive] true.
Proof.
  eexists _, _. split; [exact grown0_runs|].
  constructor.
  - apply NoDup_cons. split; [|apply NoDup_singleton].
    by rewrite list_elem_of_singleton.
  - reflexivity.
  - reflexivity.
  - reflexivity.
  - repeat (split; [reflexivity|]; eexists; split; [vm_compute; reflexivity|]).
    reflexivity.
  - repeat (split; [reflexivity|]; eexists; split; [vm_compute; reflexivity|]).
    reflexivity.
  - vm_compute. reflexivity.
Qed.

Lemma selfCollision_after_advance_witness :
  ∃ s h s1 h1 v,
    grown0 = Some (s, h) ∧
    advance s h = Some (Some 1%positive, s1, h1) ∧
    selfCollision 2 s1 h1 = Some v.
Proof.
  destruct grown0_inv as (s & h & Hg & Hinv).
  destruct (advance_inv _ _ _ _ _ Hinv) as (s1 & h1 & t' & rest' & Hrun & _).
  destruct (selfCollision_after_advance s h _ _ _ _ s1 h1 2 Hinv
              (NoDup_singleton _) Hrun ltac:(simpl; lia))
    as (hd & _ & Hv & _).
  eexists s, h, s1, h1, _. split; [exact Hg|]. split; [exact Hrun|exact Hv].
Defined.

(** ** Leaving the field *)

Lemma insideBoundaries_pos self s h hd :
  Snake.head s = Some hd → is_Some (h !! hd) →
  insideBoundaries self s h
  = Some (bool_decide (in_field self (pos_at h hd))).
Proof.
  intros Hh [n Hn]. unfold insideBoundaries, pos_at, in_field.
  rewrite Hh. simpl. rewrite Hn. simpl. f_equal.
  destruct (Node.pos n) as [x y]. simpl.
  destruct (bool_decide_reflect (0 ≤ x ≤ Screen.mapWidth self
                                 ∧ 0 ≤ y ≤ Screen.mapHeight self)); lia.
Qed.

(** X9.  A snake whose head is inside the field leaves it on [advance]
    exactly when the head stood on the border it faces: the row 0 heading
    north, the column [mapWidth] heading east, the row [mapHeight] heading
    south, the column 0 heading west.  [insideBoundaries] gives the same
    answer after the old tail is freed or re-attached. *)
Theorem advance_leaves_field_from_border self s h t rest b r s1 h1 :
  snake_inv s h t rest b →
  insideBoundaries self s h = Some true →
  advance s h = Some (r, s1, h1) →
  ∃ hd inside,
    Snake.head s = Some hd ∧
    insideBoundaries self s1 h1 = Some inside ∧
    (inside = false ↔
     on_facing_border self (Snake.direction s) (pos_at h hd)) ∧
    (∀ h2, destroyNode r h1 = Some h2 →
           insideBoundaries self s1 h2 = Some inside) ∧
    (∀ s2 h2, grow s1 r h1 = Some (s2, h2) →
              insideBoundaries self s2 h2 = Some inside).
Proof.
  intros Hinv Hin Hadv.
  destruct (advance_inv _ _ _ _ _ Hinv)
    as (s1' & h1' & t' & rest' & Hrun & Hl & Hinv1).
  destruct (advance_detached _ _ _ _ _ _ _ _ Hinv Hadv)
    as (-> & Hnin & Hprev & Hpos & Hal).
  destruct (advance_positions _ _ _ _ _ _ _ _ Hinv Hadv)
    as (hd & Hh & Hlast & Hold & Hnew & Hps).
  destruct (advance_dom _ _ _ _ _ _ _ _ Hinv Hadv) as (Hdom & Hh1 & _ & _).
  rewrite Hrun in Hadv. injection Hadv as <- <-.
  rewrite Hl in Hnin.
  assert (Hn1 : is_Some (h1' !! malloc h)).
  { apply elem_of_dom. rewrite Hdom. apply elem_of_union_l.
    by apply elem_of_singleton. }
  assert (Hhd : is_Some (h !! hd)).
  { destruct Hinv as [_ _ _ _ Hnext _ _].
    apply (lseg_allocated _ _ _ _ _ hd Hnext).
    by apply last_Some_elem_of. }
  rewrite (insideBoundaries_pos _ _ _ _ Hh Hhd) in Hin.
  injection Hin as Hin. apply bool_decide_eq_true in Hin.
  exists hd, (bool_decide (in_field self (pos_at h1' (malloc h)))).
  split; [done|].
  split; [by apply insideBoundaries_pos|].
  split; [|split].
  - rewrite Hnew. rewrite bool_decide_eq_false.
    unfold in_field in *. destruct (pos_at h hd) as [x y].
    destruct (Snake.direction s); simpl in *; lia.
  - intros h2 Hd.
    assert (Hal' : is_Some (h1' !! t)).
    { apply (fmap_is_Some Node.pos). rewrite Hpos. by apply fmap_is_Some. }
    destruct (destroyNode_inv _ _ _ _ _ _ Hinv1 Hnin Hal')
      as (h2' & Hd' & -> & Hinv2).
    rewrite Hd' in Hd. injection Hd as <-.
    assert (Hne : malloc h ≠ t).
    { intros <-. apply Hnin. rewrite <- Hl. apply elem_of_app. right.
      by apply list_elem_of_singleton. }
    rewrite (insideBoundaries_pos _ _ _ (malloc h) Hh1).
    + f_equal. f_equal. unfold pos_at. by rewrite lookup_delete_ne.
    + by rewrite lookup_delete_ne.
  - intros s2 h2 Hg.
    destruct (grow_inv _ _ _ _ _ Hinv1 Hnin Hprev) as (s2' & h2' & Hg' & Hinv2).
    rewrite Hg' in Hg. injection Hg as <- <-.
    assert (Hh2 : Snake.head s2' = Some (malloc h)).
    { revert Hg'. unfold grow. simpl.
      destruct (h1' !! t); simpl; [|done]. intros [= <- _]. done. }
    rewrite (insideBoundaries_pos _ _ _ (malloc h) Hh2).
    + by rewrite (grow_positions _ _ _ _ _ (malloc h) Hg').
    + destruct Hinv2 as [_ _ Hhead _ Hnext _ _].
      apply (lseg_allocated _ _ _ _ _ (malloc h) Hnext).
      apply last_Some_elem_of. congruence.
Qed.

Lemma advance_leaves_field_from_border_witness :
  ∃ s1 h1,
    advance snake0.1 snake0.2 = Some (Some 1%positive, s1, h1) ∧
    insideBoundaries (newScreen 80 24) s1 h1 = Some true.
Proof.
  destruct (advance_inv _ _ _ _ _ (newSnake_inv center0 1 ∅))
    as (s1 & h1 & t' & rest' & Hrun & _).
  destruct (advance_leaves_field_from_border
              (newScreen 80 24)
              snake0.1 snake0.2 _ _ _ _ s1 h1
              (newSnake_inv center0 1 ∅) eq_refl Hrun)
    as (hd & inside & Hh & Hi & Hiff & _).
  exists s1, h1. split; [exact Hrun|].
  rewrite Hi. f_equal. destruct inside; [done|].
  exfalso. destruct Hiff as [Hiff _]. specialize (Hiff eq_refl).
  injection Hh as <-. revert Hiff. vm_compute. discriminate.
Defined.

(** ** The grid *)

Lemma grid_set_is_Some g y x v :
  is_Some (grid_get g y x) → is_Some (grid_set g y x v).
Proof.
  unfold grid_get, grid_set. destruct (_ && _); [|done].
  destruct (g !! Z.to_nat y) as [row|]; simpl; [|done].
  destruct (row !! Z.to_nat x); simpl; [eauto|done].
Qed.

Lemma grid_set_get_is_Some g y x v g' :
  grid_set g y x v = Some g' → is_Some (grid_get g y x).
Proof.
  unfold grid_get, grid_set. destruct (_ && _); [|done].
  destruct (g !! Z.to_nat y) as [row|]; simpl; [|done].
  destruct (row !! Z.to_nat x); simpl; [eauto|done].
Qed.

Lemma grid_get_set g y x v g' y' x' :
  grid_set g y x v = Some g' →
  grid_get g' y' x'
  = if decide (y' = y ∧ x' = x) then Some v else grid_get g y' x'.
Proof.
  unfold grid_get, grid_set.
  destruct (Z.leb_spec 0 y); simpl; [|done].
  destruct (Z.leb_spec 0 x); simpl; [|done].
  destruct (g !! Z.to_nat y) as [row|] eqn:Hrow; simpl; [|done].
  destruct (row !! Z.to_nat x) as [c|] eqn:Hc; simpl; [|done].
  intros [= <-].
  apply lookup_lt_Some in Hrow as Hly. apply lookup_lt_Some in Hc as Hlx.
  destruct (Z.leb_spec 0 y'); simpl; [|by rewrite decide_False by lia].
  destruct (Z.leb_spec 0 x'); simpl; [|by rewrite decide_False by lia].
  destruct (decide (Z.to_nat y = Z.to_nat y')) as [Hy|Hy].
  - rewrite <- Hy, list_lookup_insert_eq by done. simpl.
    destruct (decide (Z.to_nat x = Z.to_nat x')) as [Hx|Hx].
    + rewrite <- Hx, list_lookup_insert_eq by done.
      rewrite decide_True by lia. done.
    + rewrite list_lookup_insert_ne by done.
      rewrite decide_False by lia. by rewrite Hrow.
  - rewrite list_lookup_insert_ne by done.
    by rewrite decide_False by lia.
Qed.

Lemma grid_shaped_set self y x v g' :
  grid_shaped self → grid_set (Screen.grid self) y x v = Some g' →
  grid_shaped (Screen.set_grid g' self).
Proof.
  intros Hs Hset y' x'. simpl. rewrite (grid_get_set _ _ _ _ _ _ _ Hset).
  case_decide as Heq; [|apply Hs].
  destruct Heq as [-> ->]. rewrite <- (Hs y x).
  split; [intros _|by eauto].
  unfold grid_set, grid_get in *. destruct (_ && _); [|done].
  destruct (Screen.grid self !! Z.to_nat y) as [row|]; simpl in *; [|done].
  destruct (row !! Z.to_nat x); simpl in *; [eauto|done].
Qed.

(** X10.  On a terminal of at least one column and one row [newScreen]
    lays out a field of non-negative extents whose grid holds a zero on
    every cell of the field and has no entry anywhere else; the centre,
    where [main] puts the first segment, is a cell of the field. *)
Theorem newScreen_field maxx maxy :
  1 ≤ maxx → 1 ≤ maxy →
  0 ≤ Screen.mapWidth (newScreen maxx maxy) ∧
  0 ≤ Screen.mapHeight (newScreen maxx maxy) ∧
  (∀ y x, grid_get (Screen.grid (newScreen maxx maxy)) y x
          = if bool_decide (in_field (newScreen maxx maxy) (Point.mk x y))
            then Some 0 else None) ∧
  in_field (newScreen maxx maxy) (center (newScreen maxx maxy)) ∧
  0 ≤ Point.x (Screen.offset (newScreen maxx maxy)) ∧
  0 ≤ Point.y (Screen.offset (newScreen maxx maxy)).
Proof.
  intros Hx Hy.
  assert (Hw : 0 ≤ Z.quot (maxx - 1) 4) by (apply Z.quot_pos; lia).
  assert (Hh : 0 ≤ Z.quot ((maxy - 1) * 2) 3) by (apply Z.quot_pos; lia).
  split; [done|]. split; [done|]. split; [|split; [|split]].
  - intros y x. case_bool_decide as Hin.
    + by apply (newScreen_grid_clear maxx maxy (Point.mk x y)).
    + unfold in_field, newScreen, grid_get in *. simpl in *.
      destruct (Z.leb_spec 0 y); simpl; [|done].
      destruct (Z.leb_spec 0 x); simpl; [|done].
      destruct (decide (y ≤ Z.quot ((maxy - 1) * 2) 3)) as [Hly|Hly].
      * rewrite lookup_replicate_2 by lia. simpl.
        apply lookup_replicate_None. lia.
      * match goal with
        | |- ?l !! _ ≫= _ = None =>
            assert (Hn : l !! Z.to_nat y = None)
              by (apply lookup_replicate_None; lia);
            by rewrite Hn
        end.
  - unfold in_field, center, newScreen. simpl. split.
    + split; [by apply Z.quot_pos|]. apply Z.quot_le_upper_bound; lia.
    + split; [by apply Z.quot_pos|]. apply Z.quot_le_upper_bound; lia.
  - unfold newScreen. simpl. apply Z.quot_pos; [|lia].
    pose proof (Z.mul_quot_le (maxx - 1) 4). lia.
  - unfold newScreen. simpl. apply Z.quot_pos; [|lia].
    pose proof (Z.mul_quot_le ((maxy - 1) * 2) 3). lia.
Qed.

Lemma newScreen_field_witness :
  in_field (newScreen 80 24) (center (newScreen 80 24)) ∧
  grid_get (Screen.grid (newScreen 80 24)) 15 19 = Some 0 ∧
  grid_get (Screen.grid (newScreen 80 24)) 16 19 = None.
Proof.
  destruct (newScreen_field 80 24 ltac:(lia) ltac:(lia))
    as (_ & _ & Hg & Hc & _).
  split; [exact Hc|]. split; [exact (Hg 15 19)|exact (Hg 16 19)].
Defined.

Lemma newScreen_shaped maxx maxy :
  1 ≤ maxx → 1 ≤ maxy → grid_shaped (newScreen maxx maxy).
Proof.
  intros Hx Hy y x.
  assert (Hw : 0 ≤ Z.quot (maxx - 1) 4) by (apply Z.quot_pos; lia).
  assert (Hh : 0 ≤ Z.quot ((maxy - 1) * 2) 3) by (apply Z.quot_pos; lia).
  split.
  - intros [c Hc]. unfold in_field, newScreen, grid_get in *. simpl in *.
    destruct (Z.leb_spec 0 y); simpl in Hc; [|done].
    destruct (Z.leb_spec 0 x); simpl in Hc; [|done].
    destruct (replicate _ _ !! Z.to_nat y) as [row|] eqn:Hrow;
      simpl in Hc; [|done].
    apply lookup_replicate in Hrow as [-> Hly].
    apply lookup_replicate in Hc as [_ Hlx]. lia.
  - intros Hin. exists 0.
    by apply (newScreen_grid_clear maxx maxy (Point.mk x y)).
Qed.

(** ** The field on the terminal *)

Lemma elem_of_drawWalls self row col :
  (row, col) ∈ drawWalls self ↔
  let west := Point.x (Screen.offset self) in
  let east := translate (Screen.mapWidth self) + Point.x (Screen.offset self) + 2 in
  let north := Point.y (Screen.offset self) - 1 in
  let south := Screen.mapHeight self + Point.y (Screen.offset self) + 1 in
  ((row = north ∨ row = south) ∧ west ≤ col ≤ east) ∨
  ((col = west ∨ col = east) ∧ north < row < south).
Proof.
  unfold drawWalls. cbv zeta. simpl.
  rewrite elem_of_app, !list_elem_of_bind.
  setoid_rewrite elem_of_seqZ.
  split.
  - intros [(i & Hc & Hi)|(j & Hc & Hj)].
    + apply elem_of_cons in Hc as [[= -> ->]|Hc]; [left; lia|].
      apply list_elem_of_singleton in Hc as [= -> ->]. left. lia.
    + apply elem_of_cons in Hc as [[= -> ->]|Hc]; [right; lia|].
      apply list_elem_of_singleton in Hc as [= -> ->]. right. lia.
  - intros [[[-> | ->] Hc]|[[-> | ->] Hr]].
    + left. exists col. split; [left|lia].
    + left. exists col. split; [right; left|lia].
    + right. exists row. split; [left|lia].
    + right. exists row. split; [right; left|lia].
Qed.

(** X11.  How the field lies on the terminal.  A cell of the field is
    drawn on two terminal cells that no wall covers, and no other point is
    drawn on either of them; a point one step outside the field is drawn
    onto the wall. *)
Theorem field_drawn_inside_walls self p :
  in_field self p →
  (∀ c, c ∈ drawPoint self p → c ∉ drawWalls self) ∧
  (∀ q c, q ≠ p → c ∈ drawPoint self p → c ∉ drawPoint self q) ∧
  (∀ d, ¬ in_field self (step d p) →
        ∃ c, c ∈ drawPoint self (step d p) ∧ c ∈ drawWalls self).
Proof.
  intros [Hx Hy]. destruct p as [x y]. simpl in *.
  split; [|split].
  - intros [row col] Hc Hw. apply elem_of_drawWalls in Hw. cbv zeta in Hw.
    unfold drawPoint, translate in *. simpl in Hc.
    apply elem_of_cons in Hc as [[= -> ->]|Hc]; [lia|].
    apply list_elem_of_singleton in Hc as [= -> ->]. lia.
  - intros [qx qy] [row col] Hne Hc Hq. unfold drawPoint, translate in *.
    simpl in *. apply Hne.
    apply elem_of_cons in Hc as [[= -> ->]|Hc];
      [|apply list_elem_of_singleton in Hc as [= -> ->]];
      (apply elem_of_cons in Hq as [[= Hr Hc']|Hq];
       [|apply list_elem_of_singleton in Hq as [= Hr Hc']]);
      f_equal; lia.
  - intros d Hout. unfold in_field in Hout.
    destruct d; simpl in Hout.
    + exists (y - 1 + Point.y (Screen.offset self),
              translate x + Point.x (Screen.offset self)).
      split; [left|]. apply elem_of_drawWalls. cbv zeta.
      unfold translate. lia.
    + exists (y + Point.y (Screen.offset self),
              translate (x + 1) + Point.x (Screen.offset self)).
      split; [left|]. apply elem_of_drawWalls. cbv zeta.
      unfold translate. lia.
    + exists (y + 1 + Point.y (Screen.offset self),
              translate x + Point.x (Screen.offset self)).
      split; [left|]. apply elem_of_drawWalls. cbv zeta.
      unfold translate. lia.
    + exists (y + Point.y (Screen.offset self),
              translate (x - 1) + Point.x (Screen.offset self) + 1).
      split; [right; left|]. apply elem_of_drawWalls. cbv zeta.
      unfold translate. lia.
Qed.

Lemma field_drawn_inside_walls_witness :
  in_field (newScreen 30 24) (Point.mk 4 9) ∧
  (9 + Point.y (Screen.offset (newScreen 30 24)),
   translate 4 + Point.x (Screen.offset (newScreen 30 24)))
  ∉ drawWalls (newScreen 30 24).
Proof.
  assert (Hin : in_field (newScreen 30 24) (Point.mk 4 9))
    by (vm_compute; intuition discriminate).
  split; [exact Hin|].
  destruct (field_drawn_inside_walls (newScreen 30 24) (Point.mk 4 9) Hin)
    as (Hw & _).
  apply Hw. left.
Defined.

(** X12.  On a terminal of at least 10 columns and 5 rows the layout of
    [newScreen] keeps every wall cell that [drawWalls] prints on the
    terminal: rows [0 .. maxy - 1], columns [0 .. maxx - 1]. *)
Theorem walls_fit_terminal maxx maxy c :
  10 ≤ maxx → 5 ≤ maxy →
  c ∈ drawWalls (newScreen maxx maxy) →
  0 ≤ c.1 < maxy ∧ 0 ≤ c.2 < maxx.
Proof.
  intros Hx Hy Hc. destruct c as [row col].
  apply elem_of_drawWalls in Hc. cbv zeta in Hc.
  unfold newScreen, translate in Hc. simpl in *.
  rewrite (Z.quot_div_nonneg (maxx - 1) 4),
    (Z.quot_div_nonneg ((maxy - 1) * 2) 3) in Hc by lia.
  rewrite !Z.quot_div_nonneg in Hc by (Z.div_mod_to_equations; lia).
  Z.div_mod_to_equations. lia.
Qed.

Lemma walls_fit_terminal_witness :
  (3, 20) ∈ drawWalls (newScreen 80 24) ∧ 0 ≤ 3 < 24 ∧ 0 ≤ 20 < 80.
Proof.
  assert (Hin : (3, 20) ∈ drawWalls (newScreen 80 24)).
  { apply elem_of_drawWalls. vm_compute. intuition discriminate. }
  split; [exact Hin|].
  apply (walls_fit_terminal 80 24 (3, 20)); [lia|lia|exact Hin].
Defined.

(** ** draw *)

(** What [draw] does to the grid. *)
Lemma draw_spec self snake growing oldTail h hd :
  grid_shaped self →
  Snake.head snake = Some hd →
  is_Some (h !! hd) →
  (∀ p, Node.prev <$> h !! hd = Some (Some p) → is_Some (h !! p)) →
  (is_Some (draw self snake growing oldTail h)
   ↔ in_field self (pos_at h hd) ∧ (growing = false → in_field self oldTail)) ∧
  (∀ self', draw self snake growing oldTail h = Some self' →
     self' = Screen.set_grid (Screen.grid self') self ∧
     grid_shaped self' ∧
     ∀ y x,
       grid_get (Screen.grid self') y x =
       if decide (Point.mk x y = pos_at h hd) then Some 1
       else if negb growing && bool_decide (Point.mk x y = oldTail) then Some 0
       else grid_get (Screen.grid self) y x).
Proof.
  intros Hs Hh [hn Hn] Hprev.
  assert (Hpos : pos_at h hd = Node.pos hn) by (unfold pos_at; by rewrite Hn).
  assert (Hpv : is_Some (match Node.prev hn with
                         | Some p => Node.pos <$> h !! p
                         | None => Some (Node.pos hn)
                         end)).
  { destruct (Node.prev hn) as [p|] eqn:Hp; [|done].
    apply fmap_is_Some, Hprev. by rewrite Hn, <- Hp. }
  destruct Hpv as [pv Hpv].
  unfold draw. rewrite Hh. simpl. rewrite Hn. simpl. rewrite Hpv. simpl.
  rewrite Hpos. destruct (Node.pos hn) as [hx hy]. simpl.
  destruct oldTail as [tx ty]. simpl.
  destruct growing; simpl.
  - destruct (grid_set (Screen.grid self) hy hx 1) as [g2|] eqn:Hg2; simpl.
    + split.
      * split; [intros _|by eauto]. split; [|done].
        apply Hs. by eapply grid_set_get_is_Some.
      * intros self' [= <-]. split; [done|].
        split; [by eapply grid_shaped_set|].
        intros y x. simpl. rewrite (grid_get_set _ _ _ _ _ _ _ Hg2).
        destruct (decide (y = hy ∧ x = hx)) as [[-> ->]|Hne].
        -- by rewrite decide_True.
        -- rewrite decide_False; [done|].
           intros Heq. apply Hne. by injection Heq as -> ->.
    + split; [|done]. split; [by intros [? ?]|]. intros [Hin _].
      apply Hs in Hin. apply (grid_set_is_Some _ _ _ 1) in Hin.
      rewrite Hg2 in Hin. by destruct Hin.
  - destruct (grid_set (Screen.grid self) ty tx 0) as [g1|] eqn:Hg1; simpl.
    + pose proof (grid_shaped_set _ _ _ _ _ Hs Hg1) as Hs1.
      destruct (grid_set g1 hy hx 1) as [g2|] eqn:Hg2; simpl.
      * split.
        -- split; [intros _|by eauto]. split.
           ++ apply Hs1. simpl. by eapply grid_set_get_is_Some.
           ++ intros _. apply Hs. by eapply grid_set_get_is_Some.
        -- intros self' [= <-]. split; [done|]. split.
           ++ apply (grid_shaped_set (Screen.set_grid g1 self) hy hx 1 g2);
                done.
           ++ intros y x. simpl. rewrite (grid_get_set _ _ _ _ _ _ _ Hg2).
              rewrite (grid_get_set _ _ _ _ _ _ _ Hg1).
              destruct (decide (y = hy ∧ x = hx)) as [[-> ->]|Hne].
              ** by rewrite decide_True.
              ** rewrite (decide_False (P := Point.mk x y = Point.mk hx hy))
                   by (intros Heq; apply Hne; by injection Heq as -> ->).
                 destruct (decide (y = ty ∧ x = tx)) as [[-> ->]|Hne'].
                 --- by rewrite bool_decide_true.
                 --- rewrite bool_decide_false; [done|].
                     intros Heq. apply Hne'. by injection Heq as -> ->.
      * split; [|done]. split; [by intros [? ?]|]. intros [Hin _].
        apply Hs1 in Hin. simpl in Hin.
        apply (grid_set_is_Some _ _ _ 1) in Hin.
        rewrite Hg2 in Hin. by destruct Hin.
    + split; [|done]. split; [by intros [? ?]|]. intros [_ Hin].
      specialize (Hin eq_refl). apply Hs in Hin.
      apply (grid_set_is_Some _ _ _ 0) in Hin.
      rewrite Hg1 in Hin. by destruct Hin.
Qed.

(** X13.  On a grid of the field's shape, with the snake's head (and the
    node behind it, if any) allocated: [draw] succeeds exactly when the head
    lies in the field and, unless the snake grew, so does the old tail;
    otherwise it writes outside the grid.  When it succeeds it sets the
    head's cell to 1, clears the old tail's cell unless the snake grew or the
    head has just entered it, and leaves every other cell and every other
    field of the screen as they were. *)
Theorem draw_marks_head_clears_tail self snake growing oldTail h hd :
  grid_shaped self →
  Snake.head snake = Some hd →
  is_Some (h !! hd) →
  (∀ p, Node.prev <$> h !! hd = Some (Some p) → is_Some (h !! p)) →
  (is_Some (draw self snake growing oldTail h)
   ↔ in_field self (pos_at h hd) ∧ (growing = false → in_field self oldTail)) ∧
  (∀ self', draw self snake growing oldTail h = Some self' →
     self' = Screen.set_grid (Screen.grid self') self ∧
     grid_shaped self' ∧
     ∀ y x,
       grid_get (Screen.grid self') y x =
       if decide (Point.mk x y = pos_at h hd) then Some 1
       else if negb growing && bool_decide (Point.mk x y = oldTail) then Some 0
       else grid_get (Screen.grid self) y x).
Proof. apply draw_spec. Qed.

Lemma draw_marks_head_clears_tail_witness :
  is_Some (draw (newScreen 80 24) snake0.1 false (Point.mk 4 5) snake0.2).
Proof.
  assert (Hal : is_Some (snake0.2 !! 1%positive))
    by (eexists; vm_compute; reflexivity).
  assert (Hprev : ∀ p, Node.prev <$> snake0.2 !! 1%positive = Some (Some p) →
                       is_Some (snake0.2 !! p))
    by (intros p Hp; vm_compute in Hp; discriminate).
  destruct (draw_marks_head_clears_tail (newScreen 80 24) snake0.1 false
              (Point.mk 4 5) snake0.2 1%positive
              (newScreen_shaped 80 24 ltac:(lia) ltac:(lia)) eq_refl Hal Hprev)
    as [Hiff _].
  apply Hiff. split; [|intros _]; vm_compute; intuition discriminate.
Defined.

(** ** spawnOrb *)

Lemma spawnOrb_defined tape self :
  0 ≤ Screen.mapWidth self → 0 ≤ Screen.mapHeight self →
  grid_shaped self →
  spawnOrb tape self ≠ Undefined.
Proof.
  intros Hw Hh Hs.
  induction tape as [tape IH] using (induction_ltof1 _ (@length N)).
  destruct tape as [|r1 [|r2 tape]]; [done..|].
  rewrite spawnOrb_pass by done.
  pose proof (candidate_in_field self r1 r2 Hw Hh) as Hin.
  destruct (candidate self r1 r2) as [x y] eqn:Hc. simpl.
  apply Hs in Hin as [c Hcell]. rewrite Hcell. simpl.
  destruct (c =? 1); [|done].
  rewrite spawnOrb_set_orb. apply IH. unfold ltof. simpl. lia.
Qed.

(** X14.  On a field of non-negative extents whose grid has the field's
    shape, [spawnOrb] never reads outside the grid, whatever [rand()]
    gives: it either is still sampling when the results run out or returns,
    with the orb on a cell of the field whose grid entry is not 1 and the
    rest of the screen as it was.  With [mapWidth + 1 = 0] the first
    [rand() % (mapWidth + 1)] divides by zero. *)
Theorem spawnOrb_stays_in_grid tape self :
  grid_shaped self →
  (0 ≤ Screen.mapWidth self → 0 ≤ Screen.mapHeight self →
   spawnOrb tape self ≠ Undefined ∧
   ∀ self' tape', spawnOrb tape self = Returns (self', tape') →
     ∃ p, self' = Screen.set_orb p self ∧ in_field self p ∧ free_cell self p ∧
          ∃ n, tape = take (2 * n) tape ++ tape') ∧
  (Screen.mapWidth self + 1 = 0 → (2 ≤ length tape)%nat →
   spawnOrb tape self = Undefined).
Proof.
  intros Hs. split.
  - intros Hw Hh. split; [by apply spawnOrb_defined|].
    intros self' tape' Hrun.
    apply spawnOrb_returns in Hrun
      as (rejected & r1 & r2 & -> & -> & Hfree & _); [|done..].
    exists (candidate self r1 r2). split; [done|].
    split; [by apply candidate_in_field|]. split; [done|].
    exists (S (length rejected)).
    assert (Hlen : length (samples rejected) = (2 * length rejected)%nat).
    { induction rejected as [|[a b] rejected IH]; simpl; [done|].
      simpl in IH. rewrite IH. lia. }
    change (samples rejected ++ r1 :: r2 :: tape')
      with (samples rejected ++ [r1; r2] ++ tape').
    rewrite app_assoc. rewrite take_app_length'; [done|].
    rewrite length_app, Hlen. simpl. lia.
  - intros Hz Hlen. destruct tape as [|r1 [|r2 tape]]; simpl in Hlen; [lia..|].
    simpl. by rewrite Hz.
Qed.

Lemma spawnOrb_stays_in_grid_witness :
  grid_shaped (newScreen 80 24) ∧
  spawnOrb [9; 7; 3; 4]%N (newScreen 80 24) ≠ Undefined.
Proof.
  assert (Hs : grid_shaped (newScreen 80 24))
    by (apply newScreen_shaped; lia).
  split; [exact Hs|].
  destruct (spawnOrb_stays_in_grid [9; 7; 3; 4]%N (newScreen 80 24) Hs)
    as [Hdef _].
  apply Hdef; vm_compute; discriminate.
Defined.

(** ** Frames *)

Lemma wp_bind {A B} {U : Prop} (m : outcome A) (k : A → outcome B)
    (P : A → Prop) (Q : B → Prop) :
  wp U m P → (∀ a, P a → wp U (k a) Q) → wp U (m ≫= k) Q.
Proof. destruct m; simpl; [eauto|done..]. Qed.



Lemma wp_mono {A} {U : Prop} (m : outcome A) (P Q : A → Prop) :
  wp U m P → (∀ a, P a → Q a) → wp U m Q.
Proof. destruct m; simpl; eauto. Qed.


Lemma wp_Returns {A} {U : Prop} (m : outcome A) (Q : A → Prop) a :
  wp U m Q → m = Returns a → Q a.
Proof. by intros H ->. Qed.


Lemma wp_defined_outcome {A} (m : outcome A) (Q : A → Prop) :
  wp False m Q → m ≠ Undefined.
Proof. by destruct m. Qed.

(** The head of a snake of the kept shape is allocated, and so is the node
    its [prev] link names, if any. *)
Lemma inv_head_prev s h t rest b :
  snake_inv s h t rest b →
  ∃ hd hn, Snake.head s = Some hd ∧ h !! hd = Some hn ∧ hd ∈ t :: rest ∧
           ∀ p, Node.prev hn = Some p → is_Some (h !! p).
Proof.
  intros [Hnd Ht Hh Hlen Hnext Hprev Htp].
  destruct (last (t :: rest)) as [hd|] eqn:Hlast;
    [|by apply last_None in Hlast].
  assert (Hin : hd ∈ t :: rest) by (by apply last_Some_elem_of).
  destruct (lseg_allocated _ _ _ _ _ _ Hnext Hin) as [hn Hn].
  exists hd, hn. split; [done|]. split; [done|]. split; [done|].
  intros p Hp. rewrite Hh in Hprev.
  destruct (reverse rest) as [|a l] eqn:Hrev.
  - simpl in Hprev. apply (f_equal reverse) in Hrev.
    rewrite reverse_involutive in Hrev. simpl in Hrev. subst rest.
    simpl in Hlast. injection Hlast as <-.
    rewrite Hn in Htp. simpl in Htp. congruence.
  - simpl in Hprev. destruct Hprev as (Ha & n & Hn' & Hrest).
    injection Ha as <-. rewrite Hn in Hn'. injection Hn' as <-.
    destruct l as [|c l]; simpl in Hrest.
    + destruct b; [congruence|]. rewrite Hp in Hrest. injection Hrest as ->.
      apply (lseg_allocated _ _ _ _ _ t Hnext). left.
    + destruct Hrest as (Hc & _). rewrite Hp in Hc. injection Hc as ->.
      apply (lseg_allocated _ _ _ _ _ c Hnext). right.
      rewrite <- elem_of_reverse, Hrev. right. left.
Qed.





























(** ** The keys of the dialog *)

(** X18.  The dialog after a round.  Keys before the first play or quit
    key only move the difficulty: in the game-over dialog ['>'] raises it
    by one step up to HARD and no further, ['<'] lowers it by one step down
    to INCREMENTAL and no further, other keys change nothing; in the dialog
    after a win no key changes it.  The first play key returns false and
    the first quit key returns true, with the difficulty as selected by
    then; without such a key the dialog keeps waiting. *)
Theorem dialog_loop_first_answer kind pre key post difficulty :
  Forall (λ k, k ≠ DialogPlay ∧ k ≠ DialogQuit) pre →
  key = DialogPlay ∨ key = DialogQuit →
  dialog_loop kind (pre ++ key :: post) difficulty
  = Returns (bool_decide (key = DialogQuit),
             foldl (dialog_difficulty kind) difficulty pre, post) ∧
  dialog_loop kind pre difficulty = Pending ∧
  (∀ d k,
     dialog_difficulty WIN d k = d ∧
     dialog_difficulty OVER d DialogOther = d ∧
     Difficulty_code (dialog_difficulty OVER d DialogRight)
     = Z.min 3 (Difficulty_code d + 1) ∧
     Difficulty_code (dialog_difficulty OVER d DialogLeft)
     = Z.max 0 (Difficulty_code d - 1)).
Proof.
  intros Hpre Hkey. split; [|split].
  - revert difficulty.
    induction Hpre as [|k pre [Hk1 Hk2] _ IH]; intros difficulty.
    + by destruct Hkey as [-> | ->].
    + destruct k; try done; simpl; apply IH.
  - revert difficulty.
    induction Hpre as [|k pre [Hk1 Hk2] _ IH]; intros difficulty; [done|].
    destruct k; try done; simpl; apply IH.
  - intros d k. split; [by destruct k, d|]. by destruct d.
Qed.

Lemma dialog_loop_first_answer_witness :
  dialog_loop OVER
    [DialogRight; DialogRight; DialogOther; DialogLeft; DialogPlay; DialogQuit]
    MEDIUM
  = Returns (false, MEDIUM, [DialogQuit]).
Proof.
  assert (Hpre : Forall (λ k, k ≠ DialogPlay ∧ k ≠ DialogQuit)
                   [DialogRight; DialogRight; DialogOther; DialogLeft])
    by (repeat constructor; discriminate).
  destruct (dialog_loop_first_answer OVER
              [DialogRight; DialogRight; DialogOther; DialogLeft]
              DialogPlay [DialogQuit] MEDIUM Hpre (or_introl eq_refl))
    as [Hrun _].
  exact Hrun.
Defined.

(** ** Turning *)

Lemma changeDirection_not_opposite s d :
  1 < Snake.length s →
  Snake.direction (changeDirection s d) ≠ opposite (Snake.direction s).
Proof.
  intros Hlong. unfold changeDirection. rewrite opposite_code.
  destruct (bool_decide_reflect (d = Snake.direction s)) as [Hd|Hd]; simpl.
  { by destruct (Snake.direction s). }
  destruct (Z.ltb_spec 1 (Snake.length s)); [|lia]. simpl.
  destruct (bool_decide_reflect (d = opposite (Snake.direction s))) as [Ho|Ho];
    simpl; [|done].
  by destruct (Snake.direction s).
Qed.

Lemma step_back d' d p : step d' (step d p) = p → d' = opposite d.
Proof.
  destruct p as [x y].
  destruct d', d; simpl; intros [=]; try done; lia.
Qed.

(** X20.  No turning back onto the own body.  Take two moves in a row,
    each [advance] followed by [destroyNode] or [grow] on the node it
    returned, with any call of [changeDirection] between them.  If the snake
    has more than one segment when the second move starts, its head does not
    come back to the cell it was on before the first move. *)
Theorem two_moves_never_step_back s h t rest b r s1 h1 s2 h2 d r' s3 h3 :
  snake_inv s h t rest b →
  advance s h = Some (r, s1, h1) →
  (destroyNode r h1 = Some h2 ∧ s2 = s1) ∨ grow s1 r h1 = Some (s2, h2) →
  1 < Snake.length s2 →
  advance (changeDirection s2 d) h2 = Some (r', s3, h3) →
  ∃ hd n,
    Snake.head s = Some hd ∧ Snake.head s3 = Some n ∧
    pos_at h3 n ≠ pos_at h hd.
Proof.
  intros Hinv Hadv Hstep Hlong Hadv2.
  destruct (advance_inv _ _ _ _ _ Hinv)
    as (s1' & h1' & t' & rest' & Hrun & Hl & Hinv1).
  destruct (advance_detached _ _ _ _ _ _ _ _ Hinv Hadv)
    as (-> & Hnin & Hprev & Hpos & Hal).
  destruct (advance_positions _ _ _ _ _ _ _ _ Hinv Hadv)
    as (hd & Hh & Hlast & Hold & Hnew & _).
  destruct (advance_dom _ _ _ _ _ _ _ _ Hinv Hadv) as (_ & Hh1 & _ & Hdir1).
  rewrite Hrun in Hadv. injection Hadv as <- <-.
  rewrite Hl in Hnin.
  assert (H2 : ∃ t2 rest2 b2,
            snake_inv s2 h2 t2 rest2 b2 ∧
            Snake.head s2 = Some (malloc h) ∧
            Snake.direction s2 = Snake.direction s ∧
            pos_at h2 (malloc h) = pos_at h1' (malloc h)).
  { destruct Hstep as [[Hd ->]|Hg].
    - assert (Hal' : is_Some (h1' !! t)).
      { apply (fmap_is_Some Node.pos). rewrite Hpos. by apply fmap_is_Some. }
      destruct (destroyNode_inv _ _ _ _ _ _ Hinv1 Hnin Hal')
        as (h2' & Hd' & -> & Hinv2).
      rewrite Hd' in Hd. injection Hd as <-.
      exists t', rest', false. split; [done|]. split; [done|].
      split; [done|]. apply pos_at_fmap.
      rewrite lookup_delete_ne; [done|]. intros Heq. apply Hnin.
      rewrite Heq, <- Hl. apply elem_of_app. right.
      by apply list_elem_of_singleton.
    - destruct (grow_inv _ _ _ _ _ Hinv1 Hnin Hprev)
        as (s2' & h2' & Hg' & Hinv2).
      pose proof (grow_positions _ _ _ _ _ (malloc h) Hg) as Hp.
      rewrite Hg' in Hg. injection Hg as <- <-.
      exists t, (t' :: rest'), true. split; [done|].
      revert Hg'. unfold grow. simpl.
      destruct (h1' !! t); simpl; [|done]. intros [= <- <-]. simpl.
      by rewrite Hp. }
  destruct H2 as (t2 & rest2 & b2 & Hinv2 & Hh2 & Hdir2 & Hpos2).
  pose proof (changeDirection_inv _ _ _ _ _ d Hinv2) as Hinv2'.
  destruct (advance_positions _ _ _ _ _ _ _ _ Hinv2' Hadv2)
    as (hd2 & Hhd2 & _ & _ & Hnew2 & _).
  destruct (advance_dom _ _ _ _ _ _ _ _ Hinv2' Hadv2) as (_ & Hh3 & _ & _).
  assert (Hhead : Snake.head (changeDirection s2 d) = Snake.head s2).
  { unfold changeDirection. by destruct (_ || _). }
  rewrite Hhead, Hh2 in Hhd2. injection Hhd2 as <-.
  exists hd, (malloc h2). split; [done|]. split; [done|].
  rewrite Hnew2, Hpos2, Hnew. intros Hback.
  apply step_back in Hback.
  apply (changeDirection_not_opposite s2 d Hlong). by rewrite Hdir2.
Qed.

Lemma two_moves_never_step_back_witness :
  ∃ s h s1 h1 h2 r' s3 h3,
    grown0 = Some (s, h) ∧
    advance s h = Some (Some 1%positive, s1, h1) ∧
    destroyNode (Some 1%positive) h1 = Some h2 ∧
    advance (changeDirection s1 WEST) h2 = Some (r', s3, h3) ∧
    ∃ hd n, Snake.head s = Some hd ∧ Snake.head s3 = Some n ∧
            pos_at h3 n ≠ pos_at h hd.
Proof.
  destruct grown0_inv as (s & h & Hg & Hinv).
  destruct (advance_inv _ _ _ _ _ Hinv)
    as (s1 & h1 & t' & rest' & Hrun & Hl & Hinv1).
  destruct (advance_detached _ _ _ _ _ _ _ _ Hinv Hrun)
    as (_ & Hnin & _ & Hpos & Hal).
  destruct (advance_dom _ _ _ _ _ _ _ _ Hinv Hrun) as (_ & _ & Hlen & _).
  rewrite Hl in Hnin.
  destruct Hal as [x Hx]. rewrite Hx in Hpos.
  apply fmap_Some in Hpos as (y & Hy & _).
  destruct (destroyNode_inv _ _ _ _ _ _ Hinv1 Hnin (mk_is_Some _ _ Hy))
    as (h2 & Hd & _ & Hinv2).
  destruct (advance_inv _ _ _ _ _ (changeDirection_inv _ _ _ _ _ WEST Hinv2))
    as (s3 & h3 & t3 & rest3 & Hrun2 & _ & _).
  assert (Hlong : 1 < Snake.length s1).
  { rewrite Hlen. destruct Hinv as [_ _ _ Hlength _ _ _]. rewrite Hlength.
    simpl. lia. }
  exists s, h, s1, h1, h2, (Some t'), s3, h3.
  split; [exact Hg|]. split; [exact Hrun|]. split; [exact Hd|].
  split; [exact Hrun2|].
  exact (two_moves_never_step_back s h _ _ _ _ s1 h1 s1 h2 WEST _ s3 h3
           Hinv Hrun (or_introl (conj Hd eq_refl)) Hlong Hrun2).
Defined.

(** ** The delay on a field without surface *)

(** X21.  [progress] divides by [mapWidth * mapHeight]; when that product
    is zero (a field of one column or one row, as [newScreen] lays out on a
    terminal of at most 4 columns or at most 2 rows) the quotient is an
    infinity or a NaN for every length, and the conversion
    [(unsigned)(delayDiff.tv_nsec * progress)] of the INCREMENTAL delay is
    undefined.  The fixed delays do not read [progress]. *)
Theorem incremental_delay_undefined_without_surface len maxx maxy :
  1 ≤ maxx ≤ 4 ∨ 1 ≤ maxy ≤ 2 →
  Screen.mapWidth (newScreen maxx maxy) * Screen.mapHeight (newScreen maxx maxy)
  = 0 ∧
  (∀ mapWidth mapHeight, mapWidth * mapHeight = 0 →
     frame_delay INCREMENTAL (progress_update len mapWidth mapHeight) = None ∧
     frame_delay EASY (progress_update len mapWidth mapHeight) = Some delayMax ∧
     frame_delay MEDIUM (progress_update len mapWidth mapHeight)
     = Some delayMedium ∧
     frame_delay HARD (progress_update len mapWidth mapHeight) = Some delayMin).
Proof.
  intros Hsmall. split.
  - simpl. destruct Hsmall as [Hx|Hy].
    + rewrite (Z.quot_small (maxx - 1) 4) by lia. lia.
    + rewrite (Z.quot_small ((maxy - 1) * 2) 3) by lia. lia.
  - intros mw mh Hz. split; [|done].
    unfold frame_delay, progress_update. rewrite Hz.
    assert (H0 : float_of_Z 0 = S754_zero false) by (vm_compute; reflexivity).
    assert (Hd : ∃ m e, float_of_Z delayDiff = S754_finite false m e)
      by (vm_compute; eauto).
    destruct Hd as (m & e & Hd). rewrite H0, Hd.
    by destruct (float_of_Z len).
Qed.

Lemma incremental_delay_undefined_without_surface_witness :
  frame_delay INCREMENTAL
    (progress_update 2 (Screen.mapWidth (newScreen 4 24))
       (Screen.mapHeight (newScreen 4 24)))
  = None.
Proof.
  destruct (incremental_delay_undefined_without_surface 2 4 24
              ltac:(left; lia)) as [Hz Hnone].
  exact (proj1 (Hnone _ _ Hz)).
Defined.

(** ** prepareGame *)

Lemma prepareGame_keys_spec keys snake :
  wp False (prepareGame_keys keys snake)
    (λ r, ∃ pre key,
       keys = pre ++ key :: r.2 ∧
       Forall (λ k, k = KeyNone) pre ∧ key ≠ KeyNone ∧
       r.1.1 = bool_decide (key = KeyQuit) ∧
       r.1.2 = match key_direction key with
               | Some d => Snake.mk (Snake.head snake) (Snake.tail snake) d
                             (Snake.length snake)
               | None => snake
               end).
Proof.
  induction keys as [|k keys IH]; simpl; [done|].
  destruct k; simpl;
    try (eexists [], _; (split; [reflexivity|]); (split; [constructor|]);
         (split; [discriminate|]); by split).
  eapply wp_mono; [exact IH|].
  intros [[q s'] keys'] (pre & key & -> & Hpre & Hkey & Hq & Hs).
  exists (KeyNone :: pre), key. split; [done|].
  split; [by constructor|]. done.
Qed.

(** X22.  [prepareGame] on a field of non-negative extents with a grid of
    the field's shape and a snake of the kept shape meets nothing
    undefined.  When it returns, the orb lies on a cell of the field whose
    grid entry is not 1 and the rest of the screen is unchanged; the keys
    without a case were skipped and the first other key decided: the quit
    key returns true and leaves the snake as it was, a direction key returns
    false and sets the heading to its direction, whatever the heading was;
    head, tail and length are never touched.  On a snake of length 1 this
    heading is the one [changeDirection] would set. *)
Theorem prepareGame_first_key tape keys self snake h t rest b :
  grid_shaped self →
  0 ≤ Screen.mapWidth self → 0 ≤ Screen.mapHeight self →
  snake_inv snake h t rest b →
  prepareGame tape keys self snake h ≠ Undefined ∧
  ∀ quit self' snake' tape' keys',
    prepareGame tape keys self snake h
    = Returns (quit, self', snake', tape', keys') →
    (∃ p, self' = Screen.set_orb p self ∧ in_field self p ∧ free_cell self p) ∧
    Snake.head snake' = Snake.head snake ∧
    Snake.tail snake' = Snake.tail snake ∧
    Snake.length snake' = Snake.length snake ∧
    ∃ pre key,
      keys = pre ++ key :: keys' ∧
      Forall (λ k, k = KeyNone) pre ∧ key ≠ KeyNone ∧
      quit = bool_decide (key = KeyQuit) ∧
      (key = KeyQuit → snake' = snake) ∧
      (∀ d, key_direction key = Some d →
            Snake.direction snake' = d ∧
            (Snake.length snake = 1 → snake' = changeDirection snake d)).
Proof.
  intros Hs Hw Hh Hinv.
  assert (Hwp : wp False (prepareGame tape keys self snake h)
            (λ r, let '(quit, self', snake', tape', keys') := r in
               (∃ p, self' = Screen.set_orb p self ∧ in_field self p ∧
                     free_cell self p) ∧
               ∃ pre key,
                 keys = pre ++ key :: keys' ∧
                 Forall (λ k, k = KeyNone) pre ∧ key ≠ KeyNone ∧
                 quit = bool_decide (key = KeyQuit) ∧
                 snake' = match key_direction key with
                          | Some d => Snake.mk (Snake.head snake)
                                        (Snake.tail snake) d
                                        (Snake.length snake)
                          | None => snake
                          end)).
  { unfold prepareGame.
    apply (wp_bind _ _
      (λ r, ∃ p, r.1 = Screen.set_orb p self ∧ in_field self p ∧
                 free_cell self p)).
    { destruct (spawnOrb tape self) as [[self1 tape1]| |] eqn:Hspawn;
        simpl; [|done|].
      - apply spawnOrb_returns in Hspawn
          as (rejected & r1 & r2 & _ & -> & Hfree & _); [|done..].
        eexists. split; [reflexivity|].
        split; [by apply candidate_in_field|done].
      - by apply (spawnOrb_defined tape self). }
    intros [self1 tape1] Horb. simpl in Horb. cbv beta iota.
    destruct (inv_head_prev _ _ _ _ _ Hinv) as (hd & hn & Hhd & Hhn & _ & _).
    apply (wp_bind _ _ (λ _, True)).
    { rewrite Hhd. simpl. by rewrite Hhn. }
    intros _ _.
    eapply wp_bind; [apply prepareGame_keys_spec|].
    intros [[q s'] keys'] (pre & key & Hkeys & Hpre & Hkey & Hq & Hs').
    simpl in *. split; [done|]. by exists pre, key. }
  split; [by eapply wp_defined_outcome|].
  intros quit self' snake' tape' keys' Hrun.
  destruct (wp_Returns _ _ _ Hwp Hrun)
    as (Horb & pre & key & Hkeys & Hpre & Hkey & Hq & Hs').
  split; [done|].
  assert (Hsame : Snake.head snake' = Snake.head snake ∧
                  Snake.tail snake' = Snake.tail snake ∧
                  Snake.length snake' = Snake.length snake).
  { rewrite Hs'. by destruct (key_direction key). }
  destruct Hsame as (? & ? & ?).
  split; [done|]. split; [done|]. split; [done|].
  exists pre, key. split; [done|]. split; [done|]. split; [done|].
  split; [done|]. split.
  - intros ->. by rewrite Hs'.
  - intros d Hd. rewrite Hd in Hs'. split; [by rewrite Hs'|].
    intros Hone. rewrite Hs'. unfold changeDirection.
    destruct (Z.ltb_spec 1 (Snake.length snake)); [lia|]. simpl.
    rewrite orb_false_r.
    destruct (bool_decide_reflect (d = Snake.direction snake)) as [Heq|Heq];
      [|done].
    subst d. by destruct snake.
Qed.

Lemma prepareGame_first_key_witness :
  ∃ self' tape',
    prepareGame [9; 7; 3]%N [KeyNone; KeyWest; KeyQuit] (newScreen 80 24)
      snake0.1 snake0.2
    = Returns (false, self',
               Snake.mk (Some 1%positive) (Some 1%positive) WEST 1,
               tape', [KeyQuit]).
Proof.
  destruct (prepareGame_first_key [9; 7; 3]%N [KeyNone; KeyWest; KeyQuit]
              (newScreen 80 24) snake0.1 snake0.2 _ _ _
              (newScreen_shaped 80 24 ltac:(lia) ltac:(lia))
              ltac:(vm_compute; discriminate) ltac:(vm_compute; discriminate)
              (newSnake_inv center0 1 ∅))
    as [Hdef _].
  destruct (prepareGame [9; 7; 3]%N [KeyNone; KeyWest; KeyQuit]
              (newScreen 80 24) snake0.1 snake0.2)
    as [[[[[q self'] snake'] tape'] keys']| |] eqn:Hrun; [|by vm_compute in Hrun|done].
  exists self', tape'. vm_compute in Hrun. injection Hrun as <- <- <- <- <-.
  reflexivity.
Defined.
